(** * joi-ts-generator: the schema-to-type derivation engine

    A shallow embedding of [src/index.ts] (the minimal generator),
    [src/cli.ts] (the CLI generator) and of the coercion helpers
    ([coerceValue], [defaultOptions]), followed by the properties the
    specification states about them.

    Conventions of the embedding.
    - A Joi schema is a tree value [Schema] carrying the private fields the
      generators read: [_type], [_notes], [_tests], [_flags.presence],
      [_valids._set] and [_inner.{items,children,matches}].
    - The process-wide array [discoveredTypes] is threaded explicitly: a
      computation is a function from the registry to a [Result] holding the
      value and the registry after it, or the exception thrown.
    - The CLI generator pushes onto [schema._notes] of the exported schema
      objects.  For it the schema objects live in a [Heap] and refer to
      their inner schemas by location, as the exports do, so that an object
      reached along two paths is one object; a function that only reads
      schemas is given the tree [read] at that moment.
    - The two programs share most functions verbatim; what differs is placed
      in the modules [Index] and [Cli], and [deriveType] takes the
      [Variant] it is compiled in. *)

From stdpp Require Import gmap strings list fin_maps.
From Stdlib Require Import String Ascii ZArith DecimalString.

Set Warnings "-register-all".

Open Scope string_scope.
Open Scope list_scope.

(** ** JavaScript values and strings *)

(** The primitive values that may sit in a schema's allowed-value set or in
    an options object.  Numbers are the integer-valued ones that
    JavaScript prints in plain decimal (below 1e21 in magnitude). *)
Inductive JsValue : Type :=
  | JUndefined
  | JNull
  | JBool (b : bool)
  | JNum (z : Z)
  | JStr (s : string).

#[global] Instance JsValue_eq_dec : EqDecision JsValue.
Proof. solve_decision. Defined.

(** [===] on primitives. *)
Definition strictEq (a b : JsValue) : bool := bool_decide (a = b).

(** String conversion inside a template literal: [`${v}`]. *)
Definition toString (v : JsValue) : string :=
  match v with
  | JUndefined => "undefined"
  | JNull => "null"
  | JBool true => "true"
  | JBool false => "false"
  | JNum z => NilZero.string_of_int (Z.to_int z)
  | JStr s => s
  end.

(** String conversion of one element by [Array.prototype.join]:
    [null] and [undefined] become the empty string. *)
Definition joinElement (v : JsValue) : string :=
  match v with
  | JUndefined | JNull => EmptyString
  | _ => toString v
  end.

(** The line feed and the double quote, as one-character strings. *)
Definition nl : string := String (ascii_of_nat 10) EmptyString.
Definition dquote : string := String (ascii_of_nat 34) EmptyString.

(** [strs.join(sep)] on an array of strings. *)
Definition join (sep : string) (strs : list string) : string :=
  String.concat sep strs.

(** [!x] for a possibly absent string: [undefined] and the empty string
    are falsy. *)
Definition falsy (x : option string) : bool :=
  match x with
  | None => true
  | Some s => String.eqb s EmptyString
  end.

Fixpoint dropChars (n : nat) (s : string) : string :=
  match n, s with
  | O, _ => s
  | S n', EmptyString => EmptyString
  | S n', String _ s' => dropChars n' s'
  end.

(** [/^type:/] *)
Definition typeCheck_test (n : string) : bool := String.prefix "type:" n.

(** [n.replace(typeCheck, empty)]: the match, if any, sits at the start. *)
Definition typeCheck_strip (n : string) : string :=
  if typeCheck_test n then dropChars 5 n else n.

(** [/Schema$/] *)
Definition schemaCheck_test (n : string) : bool :=
  (6 <=? String.length n)%nat
  && String.eqb (String.substring (String.length n - 6) 6 n) "Schema".

(** [key.replace(schemaCheck, empty)] *)
Definition schemaCheck_strip (n : string) : string :=
  if schemaCheck_test n then String.substring 0 (String.length n - 6) n else n.

(** ** Schema nodes *)

(** One entry of [schema._tests]; only its [name] is read. *)
Record JoiTest : Type := mkTest { test_name : string }.

Inductive Schema : Type :=
  JoiSchema
    (_type : string)                        (* schema._type *)
    (_notes : list string)                  (* schema._notes *)
    (_tests : list JoiTest)                 (* schema._tests *)
    (_flags_presence : option string)       (* schema._flags.presence *)
    (_valids_set : list JsValue)            (* schema._valids._set *)
    (_inner_items : list Schema)            (* schema._inner.items *)
    (_inner_children : list (string * Schema))
                                            (* schema._inner.children: key, schema *)
    (_inner_matches : list Schema).         (* schema._inner.matches[i].schema *)

Definition _type (s : Schema) : string :=
  match s with JoiSchema t _ _ _ _ _ _ _ => t end.
Definition _notes (s : Schema) : list string :=
  match s with JoiSchema _ n _ _ _ _ _ _ => n end.
Definition _tests (s : Schema) : list JoiTest :=
  match s with JoiSchema _ _ t _ _ _ _ _ => t end.
Definition _flags_presence (s : Schema) : option string :=
  match s with JoiSchema _ _ _ p _ _ _ _ => p end.
Definition _valids_set (s : Schema) : list JsValue :=
  match s with JoiSchema _ _ _ _ v _ _ _ => v end.
Definition _inner_items (s : Schema) : list Schema :=
  match s with JoiSchema _ _ _ _ _ i _ _ => i end.
Definition _inner_children (s : Schema) : list (string * Schema) :=
  match s with JoiSchema _ _ _ _ _ _ c _ => c end.
Definition _inner_matches (s : Schema) : list Schema :=
  match s with JoiSchema _ _ _ _ _ _ _ m => m end.

(** ** Exceptions and the registry-threading monad *)

Inductive JsError : Type :=
  | TypeError (msg : string)    (* raised by the runtime *)
  | Error (msg : string).       (* [new Error(msg)] *)

Inductive Result (A : Type) : Type :=
  | Ok (a : A)
  | Throw (e : JsError).
Arguments Ok {A} a.
Arguments Throw {A} e.

(** ** The Named-Type Registry *)

(** [interface IDiscoverableType { name; type?; skip? }] *)
Record IDiscoverableType : Type := mkType {
  name : string;
  type : option string;
  skip : option bool
}.

Definition Registry : Type := list IDiscoverableType.

(** [t.skip] as a condition. *)
Definition skipped (t : IDiscoverableType) : bool :=
  match skip t with
  | Some true => true
  | _ => false
  end.

Definition hasName (n : string) (t : IDiscoverableType) : bool :=
  String.eqb (name t) n.

(** [addDiscoveredType]: push unless an entry of that name is found. *)
Definition addDiscoveredType (t : IDiscoverableType) (discoveredTypes : Registry)
  : Registry :=
  match List.find (hasName (name t)) discoveredTypes with
  | Some _ => discoveredTypes
  | None => discoveredTypes ++ [t]
  end.

(** A computation that reads and extends [discoveredTypes] and may throw. *)
Definition Gen (A : Type) : Type := Registry -> Result (A * Registry).

Definition ret {A} (a : A) : Gen A := fun reg => Ok (a, reg).
Definition throw {A} (e : JsError) : Gen A := fun _ => Throw e.
Definition bind {A B} (m : Gen A) (k : A -> Gen B) : Gen B :=
  fun reg =>
    match m reg with
    | Ok (a, reg') => k a reg'
    | Throw e => Throw e
    end.
Definition liftResult {A} (r : Result A) : Gen A :=
  fun reg => match r with Ok a => Ok (a, reg) | Throw e => Throw e end.
Definition register (t : IDiscoverableType) : Gen unit :=
  fun reg => Ok (tt, addDiscoveredType t reg).

Notation "'do' x <- m ; k" := (bind m (fun x => k))
  (at level 10, x name, m at level 100, k at level 200).
Notation "'exec' m ; k" := (bind m (fun _ => k))
  (at level 10, m at level 100, k at level 200).

(** [xs.map(f)] where [f] has effects: left to right. *)
Fixpoint mapM {A B} (f : A -> Gen B) (xs : list A) : Gen (list B) :=
  match xs with
  | [] => ret []
  | x :: xs' => do y <- f x; do ys <- mapM f xs'; ret (y :: ys)
  end.

(** ** Functions shared by both generators *)

Inductive Variant : Type := Index | Cli.

(** [usableNotes] *)
Definition usableNotes (schema : Schema) : bool :=
  existsb typeCheck_test (_notes schema).

(** [joiToTypescript] *)
Definition joiToTypescript (type : string) : string :=
  if String.eqb type "date" then "Date" else type.

(** [nameFromNotes] *)
Definition nameFromNotes (notes : list string) : Result string :=
  let note := List.find typeCheck_test notes in
  if falsy note
  then Throw (Error "Must provide type information through notes.")
  else match note with
       | Some n => Ok (typeCheck_strip n)
       | None => Throw (Error "Must provide type information through notes.")
       end.

(** [unwrapNotes] *)
Definition unwrapNotes (type : string) (notes : list string) : Gen string :=
  do name <- liftResult (nameFromNotes notes);
  exec register (mkType name (Some type) None);
  ret name.

(** [uuidCheck]: some test is named [guid]. *)
Definition uuidCheck (schema : Schema) : bool :=
  existsb (fun t => String.eqb (test_name t) "guid") (_tests schema).

(** [alternativesCheck] *)
Definition alternativesCheck (schema : Schema) : bool :=
  String.eqb (_type schema) "alternatives".

(** lodash [some(rest)] without predicate: is some element truthy?
    The elements are schema objects, and every object is truthy. *)
Definition some (rest : list Schema) : bool :=
  existsb (fun _ => true) rest.

(** What [deriveType(undefined)] does: reading [schema._type] throws. *)
Definition readTypeOfUndefined : JsError :=
  TypeError "Cannot read property '_type' of undefined".

(** [deriveType], with the body of [unwrapArray] in its first case (the
    two call each other in the source); [unwrapArray] is stated on its own
    right after.  The [alternatives] case exists in the CLI generator
    only. *)
Fixpoint deriveType (v : Variant) (schema : Schema) {struct schema} : Gen string :=
  match schema with
  | JoiSchema ty notes tests presence valids items children matches =>
      let mapDerive :=
        fix mapDerive (l : list Schema) : Gen (list string) :=
          match l with
          | [] => ret []
          | x :: xs => do t <- deriveType v x; do ts <- mapDerive xs; ret (t :: ts)
          end in
      if String.eqb ty "array" then
        match items with
        | [] => throw readTypeOfUndefined
        | item :: rest =>
            if some rest
            then do ts <- mapDerive items; ret ("Array<" +:+ join " | " ts +:+ ">")
            else do t <- deriveType v item; ret (t +:+ "[]")
        end
      else if usableNotes schema then unwrapNotes ty notes
      else if uuidCheck schema then
        exec register (mkType "Uuid" (Some "string") None); ret "Uuid"
      else if match v with Cli => alternativesCheck schema | Index => false end then
        do types <- mapDerive matches; ret (join " | " types)
      else ret (joiToTypescript ty)
  end.

(** [unwrapArray] *)
Definition unwrapArray (v : Variant) (schema : Schema) : Gen string :=
  match _inner_items schema with
  | [] => throw readTypeOfUndefined
  | item :: rest =>
      if some rest
      then do ts <- mapM (deriveType v) (_inner_items schema);
           ret ("Array<" +:+ join " | " ts +:+ ">")
      else do t <- deriveType v item; ret (t +:+ "[]")
  end.

(** [isRequiredSchema] (inlined in [propName] by the minimal generator):
    [get(schema, "_flags.presence", "optional") === "required"]. *)
Definition isRequiredSchema (schema : Schema) : bool :=
  match _flags_presence schema with
  | Some p => String.eqb p "required"
  | None => String.eqb "optional" "required"
  end.

(** [getUnion] *)
Definition getUnion (node : Schema) : list JsValue := _valids_set node.

(** The second argument of [writeTypeAlias]: a schema node for a top-level
    schema, the [type] of a registry entry (a string, or [undefined] when
    the entry has none) for a discovered type. *)
Inductive TypeSource : Type :=
  | SrcString (s : string)
  | SrcSchema (node : Schema)
  | SrcUndefined.

Definition entryType (t : IDiscoverableType) : TypeSource :=
  match type t with
  | Some s => SrcString s
  | None => SrcUndefined
  end.

(** [out.indexOf(candidate) === -1] *)
Definition notIn (candidate : JsValue) (out : list JsValue) : bool :=
  negb (existsb (strictEq candidate) out).

(** The [options.forEach] loop of [resolveTypeDefinition]. *)
Definition collectCandidates (baseType : string) (options : list JsValue)
  : list JsValue :=
  fold_left
    (fun out opt =>
       let candidate :=
         if String.eqb baseType "string"
         then JStr (dquote +:+ toString opt +:+ dquote)
         else opt in
       if notIn candidate out then out ++ [candidate] else out)
    options [].


(** [discoveredTypes.filter(t => !t.skip).forEach(type =>
      output.unshift(writeTypeAlias(type.name, type.type)))],
    for either [writeTypeAlias]. *)
Definition unskipped (discoveredTypes : Registry) : Registry :=
  List.filter (fun t => negb (skipped t)) discoveredTypes.

Fixpoint forEachUnshift (writeTypeAlias : string -> TypeSource -> Result string)
    (types : list IDiscoverableType) (output : list string)
  : Result (list string) :=
  match types with
  | [] => Ok output
  | type :: types' =>
      match writeTypeAlias (name type) (entryType type) with
      | Ok decl => forEachUnshift writeTypeAlias types' (decl :: output)
      | Throw e => Throw e
      end
  end.

Definition notAFunction : JsError := TypeError "writer is not a function".

(** ** The minimal generator, [src/index.ts] *)

Module Index.

(** [propName] *)
Definition propName (key : string) (schema : Schema) : string :=
  if isRequiredSchema schema then key else key +:+ "?".

(** [resolveTypeDefinition] *)
Definition resolveTypeDefinition (node : TypeSource) : Result string :=
  match node with
  | SrcString node => Ok node
  | SrcUndefined => Throw readTypeOfUndefined
  | SrcSchema node =>
      let baseType := _type node in
      let options := getUnion node in
      let out :=
        if (0 <? List.length options)%nat
        then collectCandidates baseType options
        else [JStr (joiToTypescript baseType)] in
      Ok (join " | " (List.map joinElement out))
  end.

(** [writeInterfaceType] *)
Definition writeInterfaceType (typeName : string) (node : Schema) : Gen string :=
  do fields <-
    mapM (fun child : string * Schema =>
            do t <- deriveType Index (snd child);
            ret ("  " +:+ propName (fst child) (snd child) +:+ ": " +:+ t +:+ ";"))
         (_inner_children node);
  ret ("export interface " +:+ typeName +:+ " {" +:+ nl
       +:+ join nl fields +:+ nl +:+ "}").

(** [writeTypeAlias] *)
Definition writeTypeAlias (typeName : string) (type : TypeSource) : Result string :=
  match resolveTypeDefinition type with
  | Ok def => Ok ("export type " +:+ typeName +:+ " = " +:+ def +:+ ";")
  | Throw e => Throw e
  end.

(** [typeWriters\[kind\]]: absent for any other kind (a kind is the name
    of a Joi type, not of a member that every object inherits). *)
Definition typeWriters (kind : string) : option (string -> Schema -> Gen string) :=
  if String.eqb kind "array"
  then Some (fun n s => liftResult (writeTypeAlias n (SrcSchema s)))
  else if String.eqb kind "object" then Some writeInterfaceType
  else if String.eqb kind "string"
  then Some (fun n s => liftResult (writeTypeAlias n (SrcSchema s)))
  else None.

(** The callback of [Object.keys(objects).map] in [runTypeGenerator]. *)
Definition writeExport (type : Schema) : Gen string :=
  if usableNotes type then
    do name <- liftResult (nameFromNotes (_notes type));
    let writer := typeWriters (_type type) in
    exec register (mkType name None (Some true));
    match writer with
    | Some writer => writer name type
    | None => throw notAFunction
    end
  else ret EmptyString.

(** [runTypeGenerator]: the text handed to [fs.writeFileSync], and the
    registry at that point.  [objects] lists the exports of the source
    module in key order. *)
Definition runTypeGenerator (objects : list (string * Schema))
  : Gen string :=
  do output <- mapM (fun export => writeExport (snd export)) objects;
  fun discoveredTypes =>
    match forEachUnshift writeTypeAlias (unskipped discoveredTypes) output with
    | Ok output => Ok (join (nl +:+ nl) output, discoveredTypes)
    | Throw e => Throw e
    end.

(** [fs.writeFileSync(undefined, content)]: the [fs] module of Node takes
    a path that is not a string for an invalid argument and throws a
    [TypeError] before touching the file system. *)
Definition pathNotAString : JsError :=
  TypeError "path must be a string or Buffer".

(** What the process does: leave through [process.exit(code)], die of an
    uncaught exception, or reach [fs.writeFileSync(destPath, content)]
    with a path. *)
Inductive Outcome : Type :=
  | Exit (code : Z)
  | Uncaught (e : JsError)
  | WriteFileSync (destPath : string) (content : string).

(** The module body: [argv], the guard, [require(sourcePath)] and the
    call of [runTypeGenerator], whose last statement is the write.
    [require] stands for the module loader. *)
Definition main (require : option string -> Result (list (string * Schema)))
    (argv : list string) : Outcome :=
  let sourcePath := argv !! 2%nat in
  let destPath := argv !! 3%nat in
  if falsy sourcePath && falsy destPath then Exit 1
  else
    match require sourcePath with
    | Throw e => Uncaught e
    | Ok objects =>
        match runTypeGenerator objects [] with
        | Ok (content, _) =>
            match destPath with
            | Some path => WriteFileSync path content
            | None => Uncaught pathNotAString
            end
        | Throw e => Uncaught e
        end
    end.

End Index.

(** ** The CLI generator, [src/cli.ts] *)

(** A schema object in memory: the fields of a [Schema], the inner schemas
    held by reference. *)
Record SchemaObject : Type := mkObject {
  obj_type : string;
  obj_notes : list string;
  obj_tests : list JoiTest;
  obj_flags_presence : option string;
  obj_valids_set : list JsValue;
  obj_inner_items : list nat;
  obj_inner_children : list (string * nat);
  obj_inner_matches : list nat
}.

(** The schema objects of the input module, in the order they were built.
    A Joi schema is never changed by the library once built, so an object
    refers only to objects built before it. *)
Definition Heap : Type := list SchemaObject.

(** The trees of the objects at the given locations, among those built. *)
Fixpoint readRefs (built : list (option Schema)) (refs : list nat)
  : option (list Schema) :=
  match refs with
  | [] => Some []
  | r :: refs' =>
      match built !! r, readRefs built refs' with
      | Some (Some s), Some ss => Some (s :: ss)
      | _, _ => None
      end
  end.

Fixpoint readChildren (built : list (option Schema)) (refs : list (string * nat))
  : option (list (string * Schema)) :=
  match refs with
  | [] => Some []
  | (key, r) :: refs' =>
      match built !! r, readChildren built refs' with
      | Some (Some s), Some ss => Some ((key, s) :: ss)
      | _, _ => None
      end
  end.

Definition readObject (built : list (option Schema)) (o : SchemaObject)
  : option Schema :=
  match readRefs built (obj_inner_items o),
        readChildren built (obj_inner_children o),
        readRefs built (obj_inner_matches o) with
  | Some items, Some children, Some matches =>
      Some (JoiSchema (obj_type o) (obj_notes o) (obj_tests o)
              (obj_flags_presence o) (obj_valids_set o) items children matches)
  | _, _, _ => None
  end.

(** The tree below each location; [None] where the heap is not as
    described (a reference to an object not built before). *)
Definition readHeap (heap : Heap) : list (option Schema) :=
  fold_left (fun built o => built ++ [readObject built o]) heap [].

(** The schema that a function sees through the reference [l]. *)
Definition read (heap : Heap) (l : nat) : option Schema :=
  match readHeap heap !! l with
  | Some (Some s) => Some s
  | _ => None
  end.

Definition notASchemaGraph : JsError :=
  TypeError "reference to a schema that was not built before".

(** [schema._notes.push(note)] on a schema object. *)
Definition pushNote (note : string) (schema : SchemaObject) : SchemaObject :=
  {| obj_type := obj_type schema;
     obj_notes := obj_notes schema ++ [note];
     obj_tests := obj_tests schema;
     obj_flags_presence := obj_flags_presence schema;
     obj_valids_set := obj_valids_set schema;
     obj_inner_items := obj_inner_items schema;
     obj_inner_children := obj_inner_children schema;
     obj_inner_matches := obj_inner_matches schema |}.

Module Cli.
Section WithConfig.

(** [config.useOptionTypes], as a condition. *)
Variable useOptionTypes : bool.

(** [propName] *)
Definition propName (key : string) (schema : Schema) : string :=
  if isRequiredSchema schema || useOptionTypes then key else key +:+ "?".

(** [optionTypeWrapper] *)
Definition optionTypeWrapper (type : string) : string :=
  "Option<" +:+ type +:+ ">".

Definition identity (type : string) : string := type.

(** [resolveTypeDefinition] *)
Definition resolveTypeDefinition (node : TypeSource) : Result string :=
  match node with
  | SrcString node => Ok (" " +:+ node)
  | SrcUndefined => Throw readTypeOfUndefined
  | SrcSchema node =>
      let baseType := _type node in
      let options := getUnion node in
      if (0 <? List.length options)%nat
      then
        let out := collectCandidates baseType options in
        Ok (join EmptyString
              (List.map (fun str => nl +:+ "  | " +:+ toString str) out))
      else Ok (" " +:+ joiToTypescript baseType)
  end.

(** [writeInterfaceType] *)
Definition writeInterfaceType (typeName : string) (node : Schema) : Gen string :=
  do fields <-
    mapM (fun child : string * Schema =>
            let wrap :=
              if negb (isRequiredSchema (snd child)) && useOptionTypes
              then optionTypeWrapper else identity in
            do t <- deriveType Cli (snd child);
            ret ("  " +:+ propName (fst child) (snd child) +:+ ": "
                 +:+ wrap t +:+ ";"))
         (_inner_children node);
  ret ("export interface " +:+ typeName +:+ " {" +:+ nl
       +:+ join nl fields +:+ nl +:+ "}").

(** [writeTypeAlias] *)
Definition writeTypeAlias (typeName : string) (type : TypeSource) : Result string :=
  match resolveTypeDefinition type with
  | Ok def => Ok ("export type " +:+ typeName +:+ " =" +:+ def +:+ ";")
  | Throw e => Throw e
  end.

(** [typeWriters\[kind\]], for a kind that is the name of a Joi type. *)
Definition typeWriters (kind : string) : option (string -> Schema -> Gen string) :=
  if String.eqb kind "array"
  then Some (fun n s => liftResult (writeTypeAlias n (SrcSchema s)))
  else if String.eqb kind "object" then Some writeInterfaceType
  else if String.eqb kind "string"
  then Some (fun n s => liftResult (writeTypeAlias n (SrcSchema s)))
  else None.

(** [pickBy(exported, schemaNameCheck)] then
    [reduce(filteredTypes, transposeSchemaTypes, {})]: the exports whose
    name ends in [Schema], under that name without the suffix, in the
    order of the exports (export names are identifiers, which an object
    enumerates in insertion order). *)
Definition schemaTypes (exported : list (string * nat)) : list (string * nat) :=
  List.map (fun kv => (schemaCheck_strip (fst kv), snd kv))
    (List.filter (fun kv => schemaCheck_test (fst kv)) exported).

(** The note test and push of the [map] callback. *)
Definition tagSchema (name : string) (schema : SchemaObject) : SchemaObject :=
  if existsb (fun n => String.eqb n ("type:" +:+ name)) (obj_notes schema)
  then schema
  else pushNote ("type:" +:+ name) schema.

(** The callback of [map(schemaTypes, ...)]: one top-level schema, the
    object at [l].  The note is pushed onto the object in the heap, and the
    writer then reads the schema through the same reference. *)
Definition writeSchema (name : string) (l : nat)
    (discoveredTypes : Registry) (heap : Heap)
  : Result (string * Registry * Heap) :=
  match heap !! l with
  | None => Throw readTypeOfUndefined
  | Some schema =>
      let writer := typeWriters (obj_type schema) in
      let discoveredTypes := addDiscoveredType (mkType name None (Some true))
                               discoveredTypes in
      let heap := <[l := tagSchema name schema]> heap in
      match writer, read heap l with
      | None, _ => Throw notAFunction
      | Some _, None => Throw notASchemaGraph
      | Some writer, Some schema =>
          match writer name schema discoveredTypes with
          | Ok (decl, discoveredTypes) => Ok (decl, discoveredTypes, heap)
          | Throw e => Throw e
          end
      end
  end.

Fixpoint writeSchemas (types : list (string * nat))
    (discoveredTypes : Registry) (heap : Heap)
  : Result (list string * Registry * Heap) :=
  match types with
  | [] => Ok ([], discoveredTypes, heap)
  | (name, l) :: types' =>
      match writeSchema name l discoveredTypes heap with
      | Throw e => Throw e
      | Ok (decl, discoveredTypes, heap) =>
          match writeSchemas types' discoveredTypes heap with
          | Throw e => Throw e
          | Ok (decls, discoveredTypes, heap) =>
              Ok (decl :: decls, discoveredTypes, heap)
          end
      end
  end.

Definition optionImport : string :=
  "import { Option } from " +:+ dquote +:+ "fp-ts/lib/Option" +:+ dquote +:+ ";".

(** [runTypeGenerator], as far as the types file goes: the text written
    to [typesPath], the registry and the heap of schema objects at the
    end.  [exported] lists the exports of the input module in key order. *)
Definition runTypeGenerator (exported : list (string * nat))
    (discoveredTypes : Registry) (heap : Heap)
  : Result (string * Registry * Heap) :=
  match writeSchemas (schemaTypes exported) discoveredTypes heap with
  | Throw e => Throw e
  | Ok (schemaOutput, discoveredTypes, heap) =>
      match forEachUnshift writeTypeAlias (unskipped discoveredTypes)
              schemaOutput with
      | Throw e => Throw e
      | Ok schemaOutput =>
          let schemaOutput :=
            if useOptionTypes then optionImport :: schemaOutput
            else schemaOutput in
          Ok (join (nl +:+ nl) schemaOutput +:+ nl, discoveredTypes, heap)
      end
  end.

End WithConfig.
End Cli.

(** ** The coercion helper of the generated library *)

(** [Object.assign(target, ...sources)] on objects seen as finite maps from
    property names to values; an [undefined] source is skipped, and a later
    source overrides an earlier one. *)
Definition objectAssign (target : gmap string JsValue)
    (sources : list (option (gmap string JsValue))) : gmap string JsValue :=
  fold_left
    (fun acc source =>
       match source with
       | Some props => props ∪ acc
       | None => acc
       end)
    sources target.

(** [defaultOptions] *)
Definition defaultOptions : gmap string JsValue :=
  <["allowUnknown" := JBool true]>
  (<["convert" := JBool true]>
  (<["presence" := JStr "optional"]>
  (<["stripUnknown" := JBool true]> ∅))).

(** How a call ends: with a value, or with a thrown object. *)
Inductive Completion (E A : Type) : Type :=
  | Returned (a : A)
  | Thrown (e : E).
Arguments Returned {E A} a.
Arguments Thrown {E A} e.

Section Coercion.

(** The validation library and [deep-freeze-strict] are external: [Value]
    is what is validated, [JoiSchemaT] a schema, [ValidationError] the
    error object of the library; [joi_validate object schema options]
    gives the pair [(err, result)] it hands to the callback, [err] being
    [None] for [null]. *)
Variables Value JoiSchemaT ValidationError : Type.
Variable joi_validate :
  Value -> JoiSchemaT -> gmap string JsValue -> option ValidationError * Value.
Variable freeze : Value -> Value.

(** [coerceValue(schema)(object, options)] *)
Definition coerceValue (schema : JoiSchemaT) (object : Value)
    (options : option (gmap string JsValue)) : Completion ValidationError Value :=
  let resolvedOptions := objectAssign ∅ [Some defaultOptions; options] in
  match joi_validate object schema resolvedOptions with
  | (Some err, _) => Thrown err
  | (None, result) => Returned (freeze result)
  end.

End Coercion.

(** ** Notions used to state the properties *)

(** A sequence of registrations, applied in order to a registry. *)
Definition registerAll (types : list IDiscoverableType) (discoveredTypes : Registry)
  : Registry :=
  fold_left (fun reg t => addDiscoveredType t reg) types discoveredTypes.

(** The number of entries of a registry under a given name. *)
Definition countName (n : string) (discoveredTypes : Registry) : nat :=
  List.length (List.filter (hasName n) discoveredTypes).

(** The error of [nameFromNotes]. *)
Definition missingTypeInformation : JsError :=
  Error "Must provide type information through notes.".

(** Every array node that [deriveType] visits lists at least one item. *)
Fixpoint itemsPresent (v : Variant) (schema : Schema) {struct schema} : bool :=
  match schema with
  | JoiSchema ty notes tests presence valids items children matches =>
      if String.eqb ty "array" then
        match items with
        | [] => false
        | _ :: _ => forallb (itemsPresent v) items
        end
      else if usableNotes schema then true
      else if uuidCheck schema then true
      else if match v with Cli => alternativesCheck schema | Index => false end
      then forallb (itemsPresent v) matches
      else true
  end.

(** ** Induction on schema trees *)

Fixpoint Schema_tree_ind (P : Schema -> Prop)
    (step : forall ty notes tests presence valids items children matches,
        Forall P items -> Forall (fun c => P (snd c)) children ->
        Forall P matches ->
        P (JoiSchema ty notes tests presence valids items children matches))
    (s : Schema) {struct s} : P s :=
  match s with
  | JoiSchema ty notes tests presence valids items children matches =>
      step ty notes tests presence valids items children matches
        ((fix all (l : list Schema) : Forall P l :=
            match l with
            | [] => List.Forall_nil P
            | x :: xs => List.Forall_cons P x xs (Schema_tree_ind P step x) (all xs)
            end) items)
        ((fix all (l : list (string * Schema)) : Forall (fun c => P (snd c)) l :=
            match l with
            | [] => List.Forall_nil _
            | x :: xs =>
                List.Forall_cons (fun c => P (snd c)) x xs
                  (Schema_tree_ind P step (snd x)) (all xs)
            end) children)
        ((fix all (l : list Schema) : Forall P l :=
            match l with
            | [] => List.Forall_nil P
            | x :: xs => List.Forall_cons P x xs (Schema_tree_ind P step x) (all xs)
            end) matches)
  end.


(** The dispatch of the Type Deriver with its third case worded as the
    specification words it: a string schema with a [guid] rule. *)
Definition deriveTypeAsStated (v : Variant) (schema : Schema) : Gen string :=
  if String.eqb (_type schema) "array" then unwrapArray v schema
  else if usableNotes schema then unwrapNotes (_type schema) (_notes schema)
  else if String.eqb (_type schema) "string" && uuidCheck schema then
    exec register (mkType "Uuid" (Some "string") None); ret "Uuid"
  else if match v with Cli => alternativesCheck schema | Index => false end then
    do types <- mapM (deriveType v) (_inner_matches schema);
    ret (join " | " types)
  else ret (joiToTypescript (_type schema)).

(** The error raised for a node identifies that node: the notes it was
    raised for can be read off the error. *)
Definition errorNamesNode : Prop :=
  exists describe : JsError -> list string,
    forall notes e, nameFromNotes notes = Throw e -> describe e = notes.

(** A list without its repetitions: each element is kept where it is first
    seen. *)
Fixpoint firstOccurrences {A} `{EqDecision A} (l : list A) : list A :=
  match l with
  | [] => []
  | x :: l' => x :: List.filter (fun y => negb (bool_decide (x = y))) (firstOccurrences l')
  end.

(** An allowed value between double quotes. *)
Definition quoted (opt : JsValue) : string := dquote +:+ toString opt +:+ dquote.

(** A computation changes the registry by registrations only, and each
    entry it registers satisfies [P]. *)
Definition registersOnly (P : IDiscoverableType -> Prop) {A} (m : Gen A) : Prop :=
  forall reg a reg', m reg = Ok (a, reg') ->
    exists ts, reg' = registerAll ts reg /\ Forall P ts.

(** An entry the final pass can deal with: it is skipped, or it has a
    [type] to write. *)
Definition renderable (t : IDiscoverableType) : Prop :=
  skipped t = true \/ is_Some (type t).

(** The alias declaration of a discovered type. *)
Definition aliasDeclaration (t : IDiscoverableType) : string :=
  "export type " +:+ name t +:+ " = "
  +:+ match type t with Some T => T | None => EmptyString end +:+ ";".

(** One field line of a record declaration as the specification words it:
    the key, with [?] when the field is not required, unless
    [useOptionTypes] is set, and then the key as it is and the type of a
    field that is not required inside [Option<...>]. *)
Definition fieldLineAsStated (useOptionTypes : bool) (child : string * Schema)
    (t : string) : string :=
  let required :=
    match _flags_presence (snd child) with
    | Some p => bool_decide (p = "required")
    | None => false
    end in
  let fieldName :=
    if useOptionTypes then fst child
    else if required then fst child else fst child +:+ "?" in
  let fieldType :=
    if useOptionTypes
    then if required then t else "Option<" +:+ t +:+ ">"
    else t in
  "  " +:+ fieldName +:+ ": " +:+ fieldType +:+ ";".

(** Two schema objects that agree on every field but [_notes], the
    references to their inner schemas included. *)
Definition sameButNotes (s s' : SchemaObject) : Prop :=
  obj_type s = obj_type s' /\ obj_tests s = obj_tests s'
  /\ obj_flags_presence s = obj_flags_presence s'
  /\ obj_valids_set s = obj_valids_set s'
  /\ obj_inner_items s = obj_inner_items s'
  /\ obj_inner_children s = obj_inner_children s'
  /\ obj_inner_matches s = obj_inner_matches s'.

(** The names under which the object at [l] is written, in order. *)
Definition namesAt (l : nat) (types : list (string * nat)) : list string :=
  List.map fst (List.filter (fun kv => Nat.eqb (snd kv) l) types).

(** The notes test and push, for each of the names in turn. *)
Definition tagWith (names : list string) (schema : SchemaObject) : SchemaObject :=
  fold_left (fun s n => Cli.tagSchema n s) names schema.

(** A heap in building order: every object refers to earlier locations
    only. *)
Definition builtInOrder (heap : Heap) : Prop :=
  forall l o, heap !! l = Some o ->
    Forall (fun r => r < l)%nat (obj_inner_items o)
    /\ Forall (fun c => snd c < l)%nat (obj_inner_children o)
    /\ Forall (fun r => r < l)%nat (obj_inner_matches o).

(** The exit status of a process that ends before the write: the code
    given to [process.exit], and 1 for an uncaught exception. *)
Definition exitStatus (o : Index.Outcome) : option Z :=
  match o with
  | Index.Exit code => Some code
  | Index.Uncaught _ => Some 1%Z
  | Index.WriteFileSync _ _ => None
  end.

(** ** Further functions of the sources *)

(** [coerceFactory(factory, schema)(attrs, options)]: the fixture built by
    the factory is coerced by [coerceValue(schema)], which is called with
    the object alone.  [factory_build] stands for [factory.build]. *)
Definition coerceFactory (Value JoiSchemaT ValidationError Attrs BuildOptions : Type)
    (joi_validate :
       Value -> JoiSchemaT -> gmap string JsValue -> option ValidationError * Value)
    (freeze : Value -> Value)
    (factory_build : option Attrs -> option BuildOptions -> Value)
    (schema : JoiSchemaT) (attrs : option Attrs) (options : option BuildOptions)
  : Completion ValidationError Value :=
  coerceValue Value JoiSchemaT ValidationError joi_validate freeze schema
    (factory_build attrs options) None.

(** [p.replace(/\.ts$/, empty)] *)
Definition stripTsSuffix (p : string) : string :=
  if (3 <=? String.length p)%nat
     && String.eqb (String.substring (String.length p - 3) 3 p) ".ts"
  then String.substring 0 (String.length p - 3) p
  else p.

(** [relativeImportPath]; [path_relative] and [path_dirname] stand for the
    functions of the [path] module. *)
Definition relativeImportPath (path_relative : string -> string -> string)
    (path_dirname : string -> string) (from to : string) : string :=
  let p := stripTsSuffix (path_relative (path_dirname from) to) in
  match String.get 0 p with
  | Some "."%char => p
  | _ => "./" +:+ p
  end.

(** ** Further notions used to state properties *)

(** What a computation gives, the registry left aside. *)
Definition outcome {A} (r : Result (A * Registry)) : Result A :=
  match r with
  | Ok (a, _) => Ok a
  | Throw e => Throw e
  end.

(** An entry as [deriveType] registers them: with a [type], without
    [skip]. *)
Definition discovered (t : IDiscoverableType) : Prop :=
  is_Some (type t) /\ skip t = None.

(** No node that [deriveType] visits gets as far as the [alternatives]
    test with that kind. *)
Fixpoint alternativesNotMet (schema : Schema) {struct schema} : bool :=
  match schema with
  | JoiSchema ty notes tests presence valids items children matches =>
      if String.eqb ty "array" then forallb alternativesNotMet items
      else if usableNotes schema then true
      else if uuidCheck schema then true
      else negb (alternativesCheck schema)
  end.

(** A computation whose exception or value is the same for every
    registry, and which, when it returns, has made a fixed sequence of
    registrations of entries satisfying [P]. *)
Definition uniform (P : IDiscoverableType -> Prop) {A} (m : Gen A) : Prop :=
  (exists e, forall reg, m reg = Throw e)
  \/ (exists a ts, Forall P ts /\ forall reg, m reg = Ok (a, registerAll ts reg)).

(** * Properties *)

(** ** Strings *)

Lemma append_String (a : ascii) (p s : string) :
  String a p +:+ s = String a (p +:+ s).
Proof. reflexivity. Qed.

Lemma prefix_split (p s : string) :
  String.prefix p s = true -> s = p +:+ dropChars (String.length p) s.
Proof.
  revert s. induction p as [|a p IH]; intros s H.
  - reflexivity.
  - destruct s as [|b s]; simpl in H; [discriminate|].
    destruct (ascii_dec a b) as [->|]; [|discriminate].
    rewrite append_String. simpl. f_equal. now apply IH.
Qed.

Lemma prefix_append (p s : string) : String.prefix p (p +:+ s) = true.
Proof.
  induction p as [|a p IH].
  - now destruct s.
  - rewrite append_String. simpl.
    destruct (ascii_dec a a); [assumption|congruence].
Qed.

Lemma dropChars_append (p s : string) : dropChars (String.length p) (p +:+ s) = s.
Proof.
  induction p as [|a p IH]; [reflexivity|].
  rewrite append_String. simpl. assumption.
Qed.

Lemma typeCheck_test_true (n : string) :
  typeCheck_test n = true -> n = "type:" +:+ typeCheck_strip n.
Proof.
  intros H. unfold typeCheck_strip. rewrite H.
  exact (prefix_split "type:" n H).
Qed.

Lemma typeCheck_strip_tagged (rest : string) :
  typeCheck_test ("type:" +:+ rest) = true
  /\ typeCheck_strip ("type:" +:+ rest) = rest.
Proof.
  assert (H : typeCheck_test ("type:" +:+ rest) = true)
    by exact (prefix_append "type:" rest).
  split; [exact H|].
  unfold typeCheck_strip. rewrite H. exact (dropChars_append "type:" rest).
Qed.

Lemma typeCheck_test_nonempty (n : string) :
  typeCheck_test n = true -> falsy (Some n) = false.
Proof. destruct n; [discriminate|reflexivity]. Qed.

(** ** The monad *)

Lemma bind_Ok {A B} (m : Gen A) (k : A -> Gen B) reg a reg' :
  m reg = Ok (a, reg') -> bind m k reg = k a reg'.
Proof. intros H. unfold bind. now rewrite H. Qed.

Lemma bind_Throw {A B} (m : Gen A) (k : A -> Gen B) reg e :
  m reg = Throw e -> bind m k reg = Throw e.
Proof. intros H. unfold bind. now rewrite H. Qed.

Lemma bind_inv {A B} (m : Gen A) (k : A -> Gen B) reg b reg'' :
  bind m k reg = Ok (b, reg'') ->
  exists a reg', m reg = Ok (a, reg') /\ k a reg' = Ok (b, reg'').
Proof.
  unfold bind. destruct (m reg) as [[a reg']|e]; [|discriminate].
  intros H. now exists a, reg'.
Qed.

(** ** The registry *)

Lemma find_hasName_None (n : string) (reg : Registry) :
  List.find (hasName n) reg = None <-> n ∉ name <$> reg.
Proof.
  induction reg as [|t reg IH]; simpl.
  - split; [intros _; apply not_elem_of_nil|reflexivity].
  - unfold hasName at 1. destruct (String.eqb_spec (name t) n) as [E|E].
    + split; [discriminate|]. intros H. exfalso. apply H. rewrite E. left.
    + rewrite IH. rewrite not_elem_of_cons. split; [intros H; split; auto|tauto].
Qed.

Lemma find_hasName_Some (n : string) (reg : Registry) (t : IDiscoverableType) :
  List.find (hasName n) reg = Some t -> name t = n /\ t ∈ reg.
Proof.
  induction reg as [|t' reg IH]; simpl; [discriminate|].
  unfold hasName at 1. destruct (String.eqb_spec (name t') n) as [E|E].
  - intros [= <-]. split; [assumption|left].
  - intros H. destruct (IH H). split; [assumption|now right].
Qed.

Lemma find_app {A} (f : A -> bool) (l1 l2 : list A) :
  List.find f (l1 ++ l2)
  = match List.find f l1 with Some x => Some x | None => List.find f l2 end.
Proof.
  induction l1 as [|x l1 IH]; simpl; [reflexivity|].
  destruct (f x); [reflexivity|assumption].
Qed.

Lemma addDiscoveredType_present (t : IDiscoverableType) (reg : Registry) :
  name t ∈ name <$> reg -> addDiscoveredType t reg = reg.
Proof.
  intros H. unfold addDiscoveredType.
  destruct (List.find (hasName (name t)) reg) eqn:E; [reflexivity|].
  apply find_hasName_None in E. contradiction.
Qed.

Lemma addDiscoveredType_absent (t : IDiscoverableType) (reg : Registry) :
  name t ∉ name <$> reg -> addDiscoveredType t reg = reg ++ [t].
Proof.
  intros H. unfold addDiscoveredType.
  apply find_hasName_None in H. now rewrite H.
Qed.

Lemma addDiscoveredType_NoDup (t : IDiscoverableType) (reg : Registry) :
  NoDup (name <$> reg) -> NoDup (name <$> addDiscoveredType t reg).
Proof.
  intros H. unfold addDiscoveredType.
  destruct (List.find (hasName (name t)) reg) eqn:E; [assumption|].
  apply find_hasName_None in E.
  rewrite fmap_app. simpl. apply NoDup_app. split; [assumption|].
  split; [|apply NoDup_singleton].
  intros x Hx Hx'. apply list_elem_of_singleton in Hx'. now subst.
Qed.

Lemma addDiscoveredType_find (n : string) (t : IDiscoverableType) (reg : Registry) :
  List.find (hasName n) (addDiscoveredType t reg)
  = match List.find (hasName n) reg with
    | Some x => Some x
    | None => if hasName n t then Some t else None
    end.
Proof.
  unfold addDiscoveredType.
  destruct (List.find (hasName (name t)) reg) as [x|] eqn:E.
  - destruct (List.find (hasName n) reg) as [y|] eqn:E'; [reflexivity|].
    unfold hasName at 1. destruct (String.eqb_spec (name t) n) as [<-|]; congruence.
  - rewrite find_app. simpl. now destruct (List.find (hasName n) reg).
Qed.

Lemma registerAll_app (ts1 ts2 : list IDiscoverableType) (reg : Registry) :
  registerAll (ts1 ++ ts2) reg = registerAll ts2 (registerAll ts1 reg).
Proof. apply fold_left_app. Qed.

Lemma registerAll_NoDup (ts : list IDiscoverableType) (reg : Registry) :
  NoDup (name <$> reg) -> NoDup (name <$> registerAll ts reg).
Proof.
  revert reg. induction ts as [|t ts IH]; intros reg H; simpl; [assumption|].
  apply IH. now apply addDiscoveredType_NoDup.
Qed.

Lemma registerAll_find (n : string) (ts : list IDiscoverableType) (reg : Registry) :
  List.find (hasName n) (registerAll ts reg)
  = match List.find (hasName n) reg with
    | Some x => Some x
    | None => List.find (hasName n) ts
    end.
Proof.
  revert reg. induction ts as [|t ts IH]; intros reg; simpl.
  - now destruct (List.find (hasName n) reg).
  - rewrite IH, addDiscoveredType_find.
    destruct (List.find (hasName n) reg); [reflexivity|].
    now destruct (hasName n t).
Qed.

Lemma registerAll_extends (ts : list IDiscoverableType) (reg : Registry) :
  exists new, registerAll ts reg = reg ++ new.
Proof.
  revert reg. induction ts as [|t ts IH]; intros reg; simpl.
  - exists []. now rewrite app_nil_r.
  - destruct (IH (addDiscoveredType t reg)) as [new ->].
    unfold addDiscoveredType. destruct (List.find _ reg).
    + now exists new.
    + exists (t :: new). now rewrite <- app_assoc.
Qed.

Lemma countName_NoDup (n : string) (reg : Registry) :
  NoDup (name <$> reg) -> n ∈ name <$> reg -> countName n reg = 1%nat.
Proof.
  unfold countName. induction reg as [|t reg IH]; simpl; intros Hnd Hin.
  - now apply elem_of_nil in Hin.
  - apply NoDup_cons in Hnd as [Hnotin Hnd].
    unfold hasName at 1. destruct (String.eqb_spec (name t) n) as [E|E].
    + simpl. f_equal. subst n.
      apply find_hasName_None in Hnotin. clear IH Hin Hnd.
      induction reg as [|t' reg IH]; [reflexivity|].
      simpl in *. destruct (hasName (name t) t'); [discriminate|]. auto.
    + apply elem_of_cons in Hin as [Hin|Hin]; [congruence|]. auto.
Qed.

(** ** [deriveType]: unfolding *)

Lemma mapDerive_mapM (v : Variant) (l : list Schema) :
  (fix mapDerive (l : list Schema) : Gen (list string) :=
     match l with
     | [] => ret []
     | x :: xs => do t <- deriveType v x; do ts <- mapDerive xs; ret (t :: ts)
     end) l = mapM (deriveType v) l.
Proof. induction l as [|x l IH]; simpl; [reflexivity|]. now rewrite IH. Qed.

Lemma deriveType_unfold (v : Variant) (schema : Schema) :
  deriveType v schema =
  if String.eqb (_type schema) "array" then unwrapArray v schema
  else if usableNotes schema then unwrapNotes (_type schema) (_notes schema)
  else if uuidCheck schema then
    exec register (mkType "Uuid" (Some "string") None); ret "Uuid"
  else if match v with Cli => alternativesCheck schema | Index => false end then
    do types <- mapM (deriveType v) (_inner_matches schema);
    ret (join " | " types)
  else ret (joiToTypescript (_type schema)).
Proof.
  destruct schema as [ty notes tests presence valids items children matches].
  cbn [deriveType _type _notes _inner_matches]. unfold unwrapArray.
  cbn [_inner_items]. rewrite !mapDerive_mapM. reflexivity.
Qed.

Lemma some_nonempty (rest : list Schema) :
  some rest = match rest with [] => false | _ :: _ => true end.
Proof. now destruct rest. Qed.

(** ** [mapM] *)

(** Read an equation [ret a reg = Ok (b, reg')] or its like. *)
Ltac ret_inv H :=
  unfold ret, register, throw in H;
  first [discriminate H | injection H as H; subst].

Lemma mapM_length {A B} (f : A -> Gen B) (xs : list A) reg ys reg' :
  mapM f xs reg = Ok (ys, reg') -> List.length ys = List.length xs.
Proof.
  revert reg ys. induction xs as [|x xs IH]; intros reg ys H; simpl in H.
  - ret_inv H. reflexivity.
  - apply bind_inv in H as (y & r1 & _ & H).
    apply bind_inv in H as (ys' & r2 & H & H').
    ret_inv H'. simpl. f_equal. eauto.
Qed.

(** The registry only ever changes through [addDiscoveredType]. *)
Section RegistersOnly.
Variable P : IDiscoverableType -> Prop.

Lemma registersOnly_ret {A} (a : A) : registersOnly P (ret a).
Proof. intros reg a' reg' H. ret_inv H. now exists []. Qed.

Lemma registersOnly_liftResult {A} (r : Result A) : registersOnly P (liftResult r).
Proof.
  intros reg a reg' H. unfold liftResult in H.
  destruct r; [|discriminate]. injection H as <- <-. now exists [].
Qed.

Lemma registersOnly_throw {A} (e : JsError) : registersOnly P (@throw A e).
Proof. intros reg a reg' H. discriminate. Qed.

Lemma registersOnly_register (t : IDiscoverableType) :
  P t -> registersOnly P (register t).
Proof.
  intros Ht reg a reg' H. ret_inv H. exists [t]. split; [reflexivity|].
  now constructor.
Qed.

Lemma registersOnly_bind {A B} (m : Gen A) (k : A -> Gen B) :
  registersOnly P m -> (forall a, registersOnly P (k a)) ->
  registersOnly P (bind m k).
Proof.
  intros Hm Hk reg b reg'' H.
  apply bind_inv in H as (a & reg' & H1 & H2).
  destruct (Hm _ _ _ H1) as (ts1 & -> & F1).
  destruct (Hk _ _ _ _ H2) as (ts2 & -> & F2).
  exists (ts1 ++ ts2). rewrite registerAll_app. split; [reflexivity|].
  now apply Forall_app.
Qed.

Lemma registersOnly_mapM {A B} (f : A -> Gen B) (xs : list A) :
  Forall (fun x => registersOnly P (f x)) xs -> registersOnly P (mapM f xs).
Proof.
  induction 1 as [|x xs Hx _ IH]; simpl.
  - apply registersOnly_ret.
  - apply registersOnly_bind; [assumption|]. intros y.
    apply registersOnly_bind; [assumption|]. intros ys.
    apply registersOnly_ret.
Qed.

End RegistersOnly.

Lemma deriveType_registersOnly (v : Variant) (schema : Schema) :
  registersOnly (fun t => is_Some (type t)) (deriveType v schema).
Proof.
  induction schema as [ty notes tests presence valids items children matches
                         IHitems _ IHmatches] using Schema_tree_ind.
  rewrite deriveType_unfold. cbn [_type _notes _inner_matches].
  destruct (String.eqb ty "array").
  - unfold unwrapArray. cbn [_inner_items].
    destruct items as [|item rest]; [apply registersOnly_throw|].
    destruct (some rest).
    + apply registersOnly_bind; [now apply registersOnly_mapM|].
      intros ts. apply registersOnly_ret.
    + apply registersOnly_bind; [now inversion IHitems|].
      intros ts. apply registersOnly_ret.
  - destruct (usableNotes _).
    + unfold unwrapNotes.
      apply registersOnly_bind; [apply registersOnly_liftResult|]. intros n.
      apply registersOnly_bind; [now apply registersOnly_register|]. intros _.
      apply registersOnly_ret.
    + destruct (uuidCheck _).
      * apply registersOnly_bind; [now apply registersOnly_register|]. intros _.
        apply registersOnly_ret.
      * destruct (match v with Cli => _ | Index => false end).
        -- apply registersOnly_bind; [now apply registersOnly_mapM|].
           intros ts. apply registersOnly_ret.
        -- apply registersOnly_ret.
Qed.

(** [deriveType] returns whenever no array without items is met. *)
Lemma mapM_total {A B} (f : A -> Gen B) (xs : list A) :
  Forall (fun x => forall reg, exists y reg', f x reg = Ok (y, reg')) xs ->
  forall reg, exists ys reg', mapM f xs reg = Ok (ys, reg').
Proof.
  induction 1 as [|x xs Hx _ IH]; intros reg; simpl.
  - now exists [], reg.
  - destruct (Hx reg) as (y & r1 & Hy).
    destruct (IH r1) as (ys & r2 & Hys).
    exists (y :: ys), r2. unfold bind. now rewrite Hy, Hys.
Qed.

Lemma deriveType_total (v : Variant) (schema : Schema) :
  itemsPresent v schema = true ->
  forall reg, exists t reg', deriveType v schema reg = Ok (t, reg').
Proof.
  induction schema as [ty notes tests presence valids items children matches
                         IHitems _ IHmatches] using Schema_tree_ind.
  intros Hwf reg. rewrite deriveType_unfold.
  cbn [itemsPresent] in Hwf. cbn [_type _notes _inner_matches].
  destruct (String.eqb ty "array").
  - unfold unwrapArray. cbn [_inner_items].
    destruct items as [|item rest]; [discriminate|].
    assert (Hall : Forall (fun x => forall reg, exists y reg',
                             deriveType v x reg = Ok (y, reg')) (item :: rest)).
    { pose proof (proj1 (forallb_forall _ _) Hwf) as Hwf'.
      rewrite Forall_forall in IHitems |- *.
      intros x Hx. apply IHitems; [assumption|]. apply Hwf'.
      now apply list_elem_of_In. }
    destruct (some rest).
    + destruct (mapM_total _ _ Hall reg) as (ts & r1 & H).
      eexists _, r1. unfold bind. now rewrite H.
    + inversion Hall as [|? ? Hitem _]; subst.
      destruct (Hitem reg) as (t & r1 & H).
      eexists _, r1. unfold bind. now rewrite H.
  - destruct (usableNotes _) eqn:Hnotes.
    + unfold unwrapNotes, usableNotes, nameFromNotes in *. cbn [_notes] in Hnotes.
      apply existsb_exists in Hnotes as (n & Hin & Hn).
      destruct (List.find typeCheck_test notes) as [n'|] eqn:E.
      * apply find_some in E as [_ E].
        rewrite (typeCheck_test_nonempty _ E). cbn. eauto.
      * exfalso. eapply find_none in E; eauto. congruence.
    + destruct (uuidCheck _); [cbn; eauto|].
      destruct (match v with Cli => _ | Index => false end); [|cbn; eauto].
      assert (Hall : Forall (fun x => forall reg, exists y reg',
                               deriveType v x reg = Ok (y, reg')) matches).
      { pose proof (proj1 (forallb_forall _ _) Hwf) as Hwf'.
        rewrite Forall_forall in IHmatches |- *.
        intros x Hx. apply IHmatches; [assumption|]. apply Hwf'.
        now apply list_elem_of_In. }
      destruct (mapM_total _ _ Hall reg) as (ts & r1 & H).
      eexists _, r1. unfold bind. now rewrite H.
Qed.

(** A node that is not an array and has a note matching [type:] is named
    after its first such note, and registered under that name. *)
Lemma deriveType_named (v : Variant) (schema : Schema) (reg : Registry)
    (note : string) :
  _type schema <> "array" ->
  List.find typeCheck_test (_notes schema) = Some note ->
  deriveType v schema reg
  = Ok (typeCheck_strip note,
        addDiscoveredType
          (mkType (typeCheck_strip note) (Some (_type schema)) None) reg).
Proof.
  intros Harr Hfind. rewrite deriveType_unfold.
  destruct (String.eqb_spec (_type schema) "array"); [contradiction|].
  pose proof (find_some _ _ Hfind) as [Hin Hnote].
  assert (Hus : usableNotes schema = true).
  { apply existsb_exists. eauto. }
  rewrite Hus. unfold unwrapNotes, nameFromNotes. rewrite Hfind.
  rewrite (typeCheck_test_nonempty _ Hnote). reflexivity.
Qed.

(** ** Array schemas *)

(** C1. For an array schema whose items are [item :: rest], [deriveType]
    gives the derivation of [item] followed by [[]] when [rest] is empty,
    and [Array<T1 | T2 | ...>] over the derivations of all the items, the
    first included, in order and one per item, when it is not; an
    exception of a derivation is passed on. *)
Theorem deriveType_array (v : Variant) (schema item : Schema)
    (rest : list Schema) (reg : Registry) :
  _type schema = "array" ->
  _inner_items schema = item :: rest ->
  deriveType v schema reg
  = match rest with
    | [] =>
        match deriveType v item reg with
        | Ok (t, reg') => Ok (t +:+ "[]", reg')
        | Throw e => Throw e
        end
    | _ :: _ =>
        match mapM (deriveType v) (item :: rest) reg with
        | Ok (ts, reg') => Ok ("Array<" +:+ join " | " ts +:+ ">", reg')
        | Throw e => Throw e
        end
    end
  /\ (forall ts reg', mapM (deriveType v) (item :: rest) reg = Ok (ts, reg') ->
        List.length ts = S (List.length rest)).
Proof.
  intros Hty Hitems. split.
  - rewrite deriveType_unfold, Hty. cbn [String.eqb Ascii.eqb Bool.eqb].
    unfold unwrapArray. rewrite Hitems, some_nonempty.
    destruct rest; reflexivity.
  - intros ts reg' H. now apply mapM_length in H.
Qed.

Lemma deriveType_array_witness :
  let item := JoiSchema "string" [] [] None [] [] [] [] in
  let schema := JoiSchema "array" [] [] None [] [item; item] [] [] in
  _type schema = "array"
  /\ _inner_items schema = [item; item]
  /\ deriveType Index schema [] = Ok ("Array<string | string>", []).
Proof.
  intros item schema.
  split; [reflexivity|]. split; [reflexivity|].
  rewrite (proj1 (deriveType_array Index schema item [item] [] eq_refl eq_refl)).
  reflexivity.
Defined.

(** ** The dispatch order *)

(** C2, as stated, fails: a schema of another kind than string that carries
    a [guid] rule is derived to [Uuid], not to its kind. *)
Lemma deriveType_guid_ignores_kind :
  let schema := JoiSchema "number" [] [mkTest "guid"] None [] [] [] [] in
  deriveType Index schema [] = Ok ("Uuid", [mkType "Uuid" (Some "string") None])
  /\ deriveTypeAsStated Index schema [] = Ok ("number", [])
  /\ deriveType Index schema [] <> deriveTypeAsStated Index schema [].
Proof. cbv. repeat split; discriminate. Qed.

(** C2, amended.  [deriveType] takes the first case that applies, in the
    order: array kind; a note matching [type:<Name>]; a [guid] rule, on a
    schema of any kind; in the CLI generator only, the kind [alternatives];
    and otherwise the kind itself, with [date] written [Date]. A node that
    meets several of the conditions gets the result of the earliest. *)
Theorem deriveType_dispatch (v : Variant) (schema : Schema) (reg : Registry) :
  (_type schema = "array" ->
     deriveType v schema reg = unwrapArray v schema reg)
  /\ (_type schema <> "array" ->
      forall note, List.find typeCheck_test (_notes schema) = Some note ->
        deriveType v schema reg
        = Ok (typeCheck_strip note,
              addDiscoveredType
                (mkType (typeCheck_strip note) (Some (_type schema)) None) reg))
  /\ (_type schema <> "array" -> usableNotes schema = false ->
      uuidCheck schema = true ->
        deriveType v schema reg
        = Ok ("Uuid", addDiscoveredType (mkType "Uuid" (Some "string") None) reg))
  /\ (_type schema <> "array" -> usableNotes schema = false ->
      uuidCheck schema = false ->
      v = Cli -> _type schema = "alternatives" ->
        deriveType v schema reg
        = match mapM (deriveType v) (_inner_matches schema) reg with
          | Ok (types, reg') => Ok (join " | " types, reg')
          | Throw e => Throw e
          end)
  /\ (_type schema <> "array" -> usableNotes schema = false ->
      uuidCheck schema = false ->
      v = Index \/ _type schema <> "alternatives" ->
        deriveType v schema reg = Ok (joiToTypescript (_type schema), reg))
  /\ joiToTypescript "date" = "Date"
  /\ (forall kind, kind <> "date" -> joiToTypescript kind = kind).
Proof.
  assert (Hneq : forall a b : string, a <> b -> String.eqb a b = false)
    by (intros a b; now destruct (String.eqb_spec a b)).
  split; [|split; [|split; [|split; [|split; [|split]]]]].
  - intros Harr. rewrite deriveType_unfold, Harr. reflexivity.
  - intros Harr note Hfind. now apply deriveType_named.
  - intros Harr Hnotes Hguid.
    now rewrite deriveType_unfold, (Hneq _ _ Harr), Hnotes, Hguid.
  - intros Harr Hnotes Hguid -> Halt.
    rewrite deriveType_unfold, (Hneq _ _ Harr), Hnotes, Hguid.
    unfold alternativesCheck. rewrite Halt. reflexivity.
  - intros Harr Hnotes Hguid Hv.
    rewrite deriveType_unfold, (Hneq _ _ Harr), Hnotes, Hguid.
    destruct Hv as [->|Hv]; [reflexivity|].
    unfold alternativesCheck. rewrite (Hneq _ _ Hv). now destruct v.
  - reflexivity.
  - intros kind Hk. unfold joiToTypescript. now rewrite (Hneq _ _ Hk).
Qed.

(** A string schema carrying both a [type:Id] note and a [guid] rule. *)
Lemma deriveType_dispatch_witness :
  let schema := JoiSchema "string" ["type:Id"] [mkTest "guid"] None [] [] [] [] in
  _type schema <> "array"
  /\ List.find typeCheck_test (_notes schema) = Some "type:Id"
  /\ deriveType Cli schema [] = Ok ("Id", [mkType "Id" (Some "string") None]).
Proof.
  intros schema.
  assert (H : _type schema <> "array") by discriminate.
  split; [exact H|]. split; [reflexivity|].
  exact (proj1 (proj2 (deriveType_dispatch Cli schema [])) H "type:Id" eq_refl).
Defined.

(** ** The registry invariant *)

(** C3, as stated, fails in its last part: a field that carries a
    [type:Money] note need not derive to [Money].  The array case comes
    before the notes, so an array field is derived from its items and
    registers nothing; and the first note matching [type:] is the one
    taken, so a field with an earlier such note gets that name.  Two
    schemas, each with an array field annotated [type:Money], leave the
    run without any [Money] entry. *)
Lemma money_note_without_money_entry :
  let number := mkObject "number" [] [] None [] [] [] [] in
  let amounts := mkObject "array" ["type:Money"] [] None [] [0%nat] [] [] in
  let order := mkObject "object" [] [] None [] [] [("amounts", 1%nat)] [] in
  let refund := mkObject "object" [] [] None [] [] [("amounts", 2%nat)] [] in
  let price := JoiSchema "number" ["type:Cash"; "type:Money"] [] None [] [] [] [] in
  (exists content reg heap',
     Cli.runTypeGenerator false [("OrderSchema", 3%nat); ("RefundSchema", 4%nat)] []
       [number; amounts; amounts; order; refund]
     = Ok (content, reg, heap')
     /\ content
        = "export interface Order {" +:+ nl
          +:+ "  amounts?: number[];" +:+ nl +:+ "}" +:+ nl +:+ nl
          +:+ "export interface Refund {" +:+ nl
          +:+ "  amounts?: number[];" +:+ nl +:+ "}" +:+ nl
     /\ countName "Money" reg = 0%nat)
  /\ deriveType Index
       (JoiSchema "array" ["type:Money"] [] None []
          [JoiSchema "number" [] [] None [] [] [] []] [] []) []
     = Ok ("number[]", [])
  /\ deriveType Index price [] = Ok ("Cash", [mkType "Cash" (Some "number") None])
  /\ deriveType Cli price [] = Ok ("Cash", [mkType "Cash" (Some "number") None]).
Proof.
  cbv zeta. split; [|repeat split].
  eexists _, _, _. split; [reflexivity|]. split; reflexivity.
Qed.

(** C3, amended.  Whatever the sequence of registrations, the names of
    the registry are pairwise distinct, the entry under a name is the
    first one registered under it, and a registration under a name
    already used changes nothing.  Hence two fields that are not arrays
    and whose first note matching [type:] is [type:Money], derived at any
    two moments of a run, both give [Money], and the registry holds
    exactly one entry of that name from then on. *)
Theorem registry_first_wins (types between after : list IDiscoverableType)
    (t : IDiscoverableType) (v : Variant) (field1 field2 : Schema) :
  let reg := registerAll types [] in
  NoDup (name <$> reg)
  /\ (forall n, List.find (hasName n) reg = List.find (hasName n) types)
  /\ (name t ∈ name <$> types ->
      registerAll (types ++ [t]) [] = reg /\ addDiscoveredType t reg = reg)
  /\ (_type field1 <> "array" -> _type field2 <> "array" ->
      List.find typeCheck_test (_notes field1) = Some "type:Money" ->
      List.find typeCheck_test (_notes field2) = Some "type:Money" ->
      exists reg1 reg2,
        deriveType v field1 reg = Ok ("Money", reg1)
        /\ deriveType v field2 (registerAll between reg1) = Ok ("Money", reg2)
        /\ countName "Money" (registerAll after reg2) = 1%nat).
Proof.
  intros reg.
  assert (Hnd : NoDup (name <$> reg)).
  { apply registerAll_NoDup. constructor. }
  assert (Hfind : forall n, List.find (hasName n) reg = List.find (hasName n) types).
  { intros n. unfold reg. now rewrite registerAll_find. }
  split; [exact Hnd|]. split; [exact Hfind|]. split.
  - intros Hin.
    assert (E : addDiscoveredType t reg = reg).
    { apply addDiscoveredType_present.
      destruct (List.find (hasName (name t)) reg) eqn:F.
      - apply find_hasName_Some in F as [<- F].
        now apply list_elem_of_fmap_2.
      - rewrite Hfind in F. apply find_hasName_None in F. contradiction. }
    split; [|exact E]. rewrite registerAll_app. exact E.
  - intros H1 H2 N1 N2.
    pose proof (deriveType_named v field1 reg _ H1 N1) as D1.
    set (reg1 := addDiscoveredType _ reg) in D1.
    pose proof (deriveType_named v field2 (registerAll between reg1) _ H2 N2) as D2.
    set (reg2 := addDiscoveredType _ _) in D2.
    exists reg1, reg2. split; [exact D1|]. split; [exact D2|].
    assert (Hnd2 : NoDup (name <$> reg2)).
    { apply addDiscoveredType_NoDup, registerAll_NoDup, addDiscoveredType_NoDup, Hnd. }
    apply countName_NoDup; [now apply registerAll_NoDup|].
    destruct (registerAll_extends after reg2) as [new ->].
    rewrite fmap_app. apply elem_of_app. left.
    destruct (List.find (hasName "Money") reg2) eqn:F.
    + apply find_hasName_Some in F as [<- F]. now apply list_elem_of_fmap_2.
    + unfold reg2 in F. rewrite addDiscoveredType_find in F.
      destruct (List.find (hasName "Money") (registerAll between reg1));
        discriminate.
Qed.

Lemma registry_first_wins_witness :
  let money := JoiSchema "number" ["type:Money"] [] None [] [] [] [] in
  let price := JoiSchema "object" ["cents"; "type:Money"] [] None [] [] [] [] in
  let types := [mkType "Order" None (Some true); mkType "Money" (Some "number") None] in
  "Money" ∈ name <$> types
  /\ registerAll (types ++ [mkType "Money" (Some "object") None]) []
     = registerAll types []
  /\ exists reg2,
       deriveType Cli price
         (registerAll [mkType "Invoice" None (Some true)]
            (addDiscoveredType (mkType "Money" (Some "number") None)
               (registerAll types [])))
       = Ok ("Money", reg2)
       /\ countName "Money" (registerAll [] reg2) = 1%nat.
Proof.
  intros money price types.
  pose proof (registry_first_wins types [mkType "Invoice" None (Some true)] []
                (mkType "Money" (Some "object") None) Cli money price) as H.
  cbv zeta in H. destruct H as (_ & _ & H3 & H4).
  assert (Hin : "Money" ∈ name <$> types) by (right; left).
  split; [exact Hin|]. split; [exact (proj1 (H3 Hin))|].
  assert (A1 : _type money <> "array") by discriminate.
  assert (A2 : _type price <> "array") by discriminate.
  destruct (H4 A1 A2 eq_refl eq_refl) as (reg1 & reg2 & D1 & D2 & D3).
  exists reg2. split; [|exact D3].
  injection D1 as <-. exact D2.
Defined.

(** ** Names from notes *)

(** C7, as stated, fails in one respect: the error does not name the node.
    It is one fixed [Error] whatever the notes, so nothing of the node can
    be read off it. *)
Lemma nameFromNotes_error_anonymous :
  nameFromNotes [] = Throw missingTypeInformation
  /\ nameFromNotes ["min:3"] = Throw missingTypeInformation
  /\ ~ errorNamesNode.
Proof.
  split; [reflexivity|]. split; [reflexivity|].
  intros [describe H].
  pose proof (H [] _ eq_refl) as H1.
  pose proof (H ["min:3"] _ eq_refl) as H2.
  rewrite H1 in H2. discriminate.
Qed.

(** C7, amended.  When no note matches [type:], [nameFromNotes] throws an
    [Error] with the fixed message "Must provide type information through
    notes." (which says nothing of the node); when a note matches, it
    returns the first such note without its [type:] prefix. *)
Theorem nameFromNotes_spec (notes : list string) :
  (Forall (fun n => typeCheck_test n = false) notes ->
     nameFromNotes notes
     = Throw (Error "Must provide type information through notes."))
  /\ (forall before rest after,
        notes = before ++ ("type:" +:+ rest) :: after ->
        Forall (fun n => typeCheck_test n = false) before ->
        nameFromNotes notes = Ok rest).
Proof.
  split.
  - intros H. unfold nameFromNotes.
    replace (List.find typeCheck_test notes) with (@None string); [reflexivity|].
    induction H as [|n notes Hn _ IH]; simpl; [reflexivity|]. now rewrite Hn.
  - intros before rest after -> Hbefore. unfold nameFromNotes.
    destruct (typeCheck_strip_tagged rest) as [Ht Hs].
    replace (List.find typeCheck_test (before ++ ("type:" +:+ rest) :: after))
      with (Some ("type:" +:+ rest)).
    + rewrite (typeCheck_test_nonempty _ Ht). now rewrite Hs.
    + induction Hbefore as [|n before Hn _ IH]; simpl.
      * fold (typeCheck_test ("type:" +:+ rest)). now rewrite Ht.
      * now rewrite Hn.
Qed.

Lemma nameFromNotes_spec_witness :
  Forall (fun n => typeCheck_test n = false) ["required"; "min:3"]
  /\ nameFromNotes ["required"; "min:3"]
     = Throw (Error "Must provide type information through notes.")
  /\ nameFromNotes ["id"; "type:UserId"; "type:Other"] = Ok "UserId".
Proof.
  assert (H : Forall (fun n => typeCheck_test n = false) ["required"; "min:3"])
    by (repeat constructor).
  split; [exact H|]. split.
  - exact (proj1 (nameFromNotes_spec ["required"; "min:3"]) H).
  - refine (proj2 (nameFromNotes_spec ["id"; "type:UserId"; "type:Other"])
              ["id"] "UserId" ["type:Other"] eq_refl _).
    repeat constructor.
Defined.

(** ** Allowed values: the union of literals *)

Section FirstOccurrences.
Context {A : Type} `{EqDecision A}.

Lemma filter_filter_andb (f g : A -> bool) (l : list A) :
  List.filter f (List.filter g l) = List.filter (fun x => g x && f x) l.
Proof.
  induction l as [|x l IH]; simpl; [reflexivity|].
  destruct (g x); simpl; [destruct (f x)|]; now rewrite IH.
Qed.

Lemma filter_ext_elem (f g : A -> bool) (l : list A) :
  (forall x, x ∈ l -> f x = g x) -> List.filter f l = List.filter g l.
Proof.
  induction l as [|x l IH]; intros E; simpl; [reflexivity|].
  rewrite (E x) by left. rewrite IH; [reflexivity|].
  intros y Hy. apply E. now right.
Qed.

Lemma elem_of_filter_bool (f : A -> bool) (l : list A) (x : A) :
  x ∈ List.filter f l <-> x ∈ l /\ f x = true.
Proof. rewrite !list_elem_of_In. apply filter_In. Qed.

Lemma NoDup_filter_bool (f : A -> bool) (l : list A) :
  NoDup l -> NoDup (List.filter f l).
Proof.
  induction 1 as [|x l Hx _ IH]; simpl; [constructor|].
  destruct (f x); [|assumption].
  constructor; [|assumption]. rewrite elem_of_filter_bool. tauto.
Qed.

Lemma elem_of_firstOccurrences (l : list A) (x : A) :
  x ∈ firstOccurrences l <-> x ∈ l.
Proof.
  induction l as [|y l IH]; simpl; [reflexivity|].
  rewrite !elem_of_cons, elem_of_filter_bool, IH.
  destruct (decide (y = x)) as [->|Hne].
  - tauto.
  - rewrite bool_decide_eq_false_2 by assumption. simpl.
    split; [tauto|]. intros [->|Hx]; [contradiction|tauto].
Qed.

Lemma NoDup_firstOccurrences (l : list A) : NoDup (firstOccurrences l).
Proof.
  induction l as [|x l IH]; simpl; constructor.
  - rewrite elem_of_filter_bool. intros [_ H].
    now rewrite bool_decide_eq_true_2 in H.
  - now apply NoDup_filter_bool.
Qed.

(** The accumulating loop of the source computes [firstOccurrences]. *)
Lemma fold_push_absent (l acc : list A) :
  fold_left
    (fun out c =>
       if negb (existsb (fun y => bool_decide (c = y)) out)
       then out ++ [c] else out) l acc
  = acc ++ List.filter (fun y => negb (existsb (fun z => bool_decide (y = z)) acc))
             (firstOccurrences l).
Proof.
  revert acc. induction l as [|c l IH]; intros acc; simpl.
  - now rewrite app_nil_r.
  - rewrite IH. destruct (existsb (fun y => bool_decide (c = y)) acc) eqn:E; simpl.
    + f_equal. rewrite filter_filter_andb. apply filter_ext_elem.
      intros x _. destruct (decide (c = x)) as [<-|Hne].
      * rewrite E. now rewrite bool_decide_eq_true_2.
      * now rewrite (bool_decide_eq_false_2 _ Hne).
    + rewrite <- app_assoc. simpl. do 2 f_equal.
      rewrite filter_filter_andb. apply filter_ext_elem.
      intros x _. rewrite existsb_app. simpl. rewrite orb_false_r.
      rewrite negb_orb.
      destruct (decide (c = x)) as [<-|Hne].
      * rewrite !bool_decide_eq_true_2 by reflexivity. simpl.
        now rewrite andb_false_r.
      * rewrite (bool_decide_eq_false_2 _ Hne).
        assert (Hne' : x <> c) by congruence.
        rewrite (bool_decide_eq_false_2 _ Hne'). simpl.
        now rewrite andb_true_r.
Qed.

Lemma filter_true (l : list A) : List.filter (fun _ => true) l = l.
Proof. induction l as [|x l IH]; simpl; [reflexivity|]. now rewrite IH. Qed.

End FirstOccurrences.

Lemma firstOccurrences_map_inj {A B} `{EqDecision A} `{EqDecision B}
    (f : A -> B) (l : list A) :
  (forall x y, f x = f y -> x = y) ->
  firstOccurrences (List.map f l) = List.map f (firstOccurrences l).
Proof.
  intros Hinj. induction l as [|x l IH]; simpl; [reflexivity|].
  f_equal. rewrite IH. clear IH.
  induction (firstOccurrences l) as [|y l' IH]; simpl; [reflexivity|].
  destruct (decide (x = y)) as [->|Hne].
  - rewrite !bool_decide_eq_true_2 by reflexivity. simpl. exact IH.
  - rewrite (bool_decide_eq_false_2 _ Hne).
    assert (Hne' : f x <> f y) by (intros E; apply Hne, Hinj, E).
    rewrite (bool_decide_eq_false_2 _ Hne'). simpl. now rewrite IH.
Qed.

Lemma fold_left_over_map {A B C} (f : A -> C -> A) (g : B -> C)
    (l : list B) (acc : A) :
  fold_left f (List.map g l) acc = fold_left (fun a x => f a (g x)) l acc.
Proof.
  revert acc. induction l as [|x l IH]; intros acc; simpl; [reflexivity|].
  apply IH.
Qed.

Lemma collectCandidates_spec (baseType : string) (options : list JsValue) :
  collectCandidates baseType options
  = if String.eqb baseType "string"
    then List.map JStr (firstOccurrences (List.map quoted options))
    else firstOccurrences options.
Proof.
  unfold collectCandidates, notIn, strictEq.
  destruct (String.eqb baseType "string").
  - rewrite <- firstOccurrences_map_inj by (intros x y [= ->]; reflexivity).
    rewrite List.map_map. fold quoted.
    change (fun x => JStr (dquote +:+ toString x +:+ dquote))
      with (fun x => JStr (quoted x)).
    set (cands := List.map (fun x => JStr (quoted x)) options).
    transitivity
      (fold_left
         (fun out c =>
            if negb (existsb (fun y => bool_decide (c = y)) out)
            then out ++ [c] else out) cands []).
    + unfold cands. now rewrite fold_left_over_map.
    + rewrite fold_push_absent. simpl. apply filter_true.
  - rewrite fold_push_absent. simpl. apply filter_true.
Qed.

Lemma map_joinElement_JStr (l : list string) :
  List.map joinElement (List.map JStr l) = l.
Proof. induction l as [|x l IH]; simpl; [reflexivity|]. now rewrite IH. Qed.

Lemma nonempty_length {A} (l : list A) :
  l <> [] -> (0 <? List.length l)%nat = true.
Proof. now destruct l. Qed.

(** C4, as stated, fails twice.  In the CLI generator the union is laid
    out one literal per line, each behind a bar, so the alias of [Status]
    is not the text stated.  And for a kind other than string the values
    are compared by [===], not by their text: [1] and the string [1] are
    both kept. *)
Lemma writeTypeAlias_not_as_stated :
  let status :=
    JoiSchema "string" [] [] None [JStr "a"; JStr "a"; JStr "b"] [] [] [] in
  let mixed := JoiSchema "array" [] [] None [JNum 1; JStr "1"] [] [] [] in
  let stated :=
    "export type Status = " +:+ dquote +:+ "a" +:+ dquote +:+ " | "
    +:+ dquote +:+ "b" +:+ dquote +:+ ";" in
  Cli.writeTypeAlias "Status" (SrcSchema status)
  = Ok ("export type Status =" +:+ nl +:+ "  | " +:+ dquote +:+ "a" +:+ dquote
        +:+ nl +:+ "  | " +:+ dquote +:+ "b" +:+ dquote +:+ ";")
  /\ Cli.writeTypeAlias "Status" (SrcSchema status) <> Ok stated
  /\ Index.writeTypeAlias "Mixed" (SrcSchema mixed)
     = Ok "export type Mixed = 1 | 1;".
Proof. cbv. repeat split. discriminate. Qed.

(** C4, amended.  For a top-level schema with a non-empty allowed-value
    set, the alias is the union of the allowed values in first-seen order:
    for the kind string each value is quoted and the literals are
    deduplicated by their text; for any other kind the values are bare and
    deduplicated by [===].  The minimal generator joins them with a bar on
    one line, the CLI generator puts each behind a bar on a line of its
    own.  With an empty set the alias is the kind, [date] written [Date].
    So the values a, a, b on the string schema [Status] give the alias
    with the two literals a and b, in the first layout for the minimal
    generator and in the second for the CLI generator. *)
Theorem writeTypeAlias_union (typeName : string) (node : Schema) :
  let baseType := _type node in
  let options := getUnion node in
  let literals := firstOccurrences (List.map quoted options) in
  let values := firstOccurrences options in
  (options <> [] -> baseType = "string" ->
     Index.writeTypeAlias typeName (SrcSchema node)
     = Ok ("export type " +:+ typeName +:+ " = " +:+ join " | " literals +:+ ";")
     /\ Cli.writeTypeAlias typeName (SrcSchema node)
        = Ok ("export type " +:+ typeName +:+ " ="
              +:+ join EmptyString
                    (List.map (fun l => nl +:+ "  | " +:+ l) literals) +:+ ";"))
  /\ (options <> [] -> baseType <> "string" ->
     Index.writeTypeAlias typeName (SrcSchema node)
     = Ok ("export type " +:+ typeName +:+ " = "
           +:+ join " | " (List.map joinElement values) +:+ ";")
     /\ Cli.writeTypeAlias typeName (SrcSchema node)
        = Ok ("export type " +:+ typeName +:+ " ="
              +:+ join EmptyString
                    (List.map (fun v => nl +:+ "  | " +:+ toString v) values)
              +:+ ";"))
  /\ (options = [] ->
     Index.writeTypeAlias typeName (SrcSchema node)
     = Ok ("export type " +:+ typeName +:+ " = " +:+ joiToTypescript baseType +:+ ";")
     /\ Cli.writeTypeAlias typeName (SrcSchema node)
        = Ok ("export type " +:+ typeName +:+ " = " +:+ joiToTypescript baseType +:+ ";"))
  /\ NoDup literals /\ (forall l, l ∈ literals <-> l ∈ List.map quoted options)
  /\ NoDup values /\ (forall x, x ∈ values <-> x ∈ options).
Proof.
  intros baseType options literals values.
  unfold Index.writeTypeAlias, Cli.writeTypeAlias,
    Index.resolveTypeDefinition, Cli.resolveTypeDefinition.
  fold baseType options. rewrite collectCandidates_spec.
  split; [|split; [|split; [|split; [|split; [|split]]]]].
  - intros Hne Hstr. rewrite (nonempty_length _ Hne), Hstr.
    cbn [String.eqb Ascii.eqb Bool.eqb]. fold literals.
    rewrite map_joinElement_JStr, List.map_map. split; reflexivity.
  - intros Hne Hstr. rewrite (nonempty_length _ Hne).
    destruct (String.eqb_spec baseType "string"); [contradiction|].
    split; reflexivity.
  - intros ->. split; reflexivity.
  - apply NoDup_firstOccurrences.
  - intros l. apply elem_of_firstOccurrences.
  - apply NoDup_firstOccurrences.
  - intros x. apply elem_of_firstOccurrences.
Qed.

Lemma writeTypeAlias_union_witness :
  let status :=
    JoiSchema "string" [] [] None [JStr "a"; JStr "a"; JStr "b"] [] [] [] in
  getUnion status <> [] /\ _type status = "string"
  /\ Index.writeTypeAlias "Status" (SrcSchema status)
     = Ok ("export type Status = " +:+ dquote +:+ "a" +:+ dquote +:+ " | "
           +:+ dquote +:+ "b" +:+ dquote +:+ ";")
  /\ Cli.writeTypeAlias "Status" (SrcSchema status)
     = Ok ("export type Status =" +:+ nl +:+ "  | " +:+ dquote +:+ "a" +:+ dquote
           +:+ nl +:+ "  | " +:+ dquote +:+ "b" +:+ dquote +:+ ";").
Proof.
  intros status.
  assert (Hne : getUnion status <> []) by discriminate.
  split; [exact Hne|]. split; [reflexivity|].
  exact (proj1 (writeTypeAlias_union "Status" status) Hne eq_refl).
Defined.

(** ** Record declarations *)

Lemma mapM_bind_ret {A B C} (f : A -> Gen B) (g : A -> B -> C) (xs : list A) reg :
  mapM (fun x => do y <- f x; ret (g x y)) xs reg
  = match mapM f xs reg with
    | Ok (ys, reg') => Ok (zip_with g xs ys, reg')
    | Throw e => Throw e
    end.
Proof.
  revert reg. induction xs as [|x xs IH]; intros reg; simpl; [reflexivity|].
  unfold bind, ret. destruct (f x reg) as [[y r1]|e]; [|reflexivity].
  rewrite IH. destruct (mapM f xs r1) as [[ys r2]|e]; reflexivity.
Qed.

Lemma mapM_map {A B C} (f : B -> Gen C) (g : A -> B) (xs : list A) :
  mapM (fun x => f (g x)) xs = mapM f (List.map g xs).
Proof. induction xs as [|x xs IH]; simpl; [reflexivity|]. now rewrite IH. Qed.

Lemma fieldLine_as_stated (useOptionTypes : bool) (child : string * Schema)
    (t : string) :
  "  " +:+ Cli.propName useOptionTypes (fst child) (snd child) +:+ ": "
  +:+ (if negb (isRequiredSchema (snd child)) && useOptionTypes
       then Cli.optionTypeWrapper else Cli.identity) t +:+ ";"
  = fieldLineAsStated useOptionTypes child t.
Proof.
  unfold fieldLineAsStated, Cli.propName, isRequiredSchema,
    Cli.optionTypeWrapper, Cli.identity.
  destruct (_flags_presence (snd child)) as [p|].
  - destruct (String.eqb_spec p "required") as [E|E].
    + rewrite (bool_decide_eq_true_2 _ E). now destruct useOptionTypes.
    + rewrite (bool_decide_eq_false_2 _ E). now destruct useOptionTypes.
  - cbn [String.eqb Ascii.eqb Bool.eqb]. now destruct useOptionTypes.
Qed.

(** C5. The record declaration written by the CLI generator for a schema
    with the children f1..fn holds exactly one field line per child, in
    the order of the children.  The line of a child is its key, followed
    by [?] iff the child is not required, then its derived type; when
    [useOptionTypes] is set the key carries no [?] and the type of a child
    that is not required is wrapped in [Option<...>].  The types are the
    derivations of the children, taken in order. *)
Theorem writeInterfaceType_fields (useOptionTypes : bool) (typeName : string)
    (node : Schema) (reg : Registry) :
  let children := _inner_children node in
  Cli.writeInterfaceType useOptionTypes typeName node reg
  = match mapM (deriveType Cli) (List.map snd children) reg with
    | Ok (types, reg') =>
        Ok ("export interface " +:+ typeName +:+ " {" +:+ nl
            +:+ join nl (zip_with (fieldLineAsStated useOptionTypes) children types)
            +:+ nl +:+ "}", reg')
    | Throw e => Throw e
    end
  /\ (forall types reg',
        mapM (deriveType Cli) (List.map snd children) reg = Ok (types, reg') ->
        List.length (zip_with (fieldLineAsStated useOptionTypes) children types)
        = List.length children).
Proof.
  intros children. split.
  - unfold Cli.writeInterfaceType. fold children. unfold bind at 1.
    rewrite (mapM_bind_ret (fun child => deriveType Cli (snd child))
               (fun child t =>
                  "  " +:+ Cli.propName useOptionTypes (fst child) (snd child) +:+ ": "
                  +:+ (if negb (isRequiredSchema (snd child)) && useOptionTypes
                       then Cli.optionTypeWrapper else Cli.identity) t +:+ ";")).
    rewrite (mapM_map (deriveType Cli) snd).
    destruct (mapM (deriveType Cli) (List.map snd children) reg)
      as [[types reg']|e]; [|reflexivity].
    unfold ret.
    replace (zip_with (fieldLineAsStated useOptionTypes) children types)
      with (zip_with
              (fun child t =>
                 "  " +:+ Cli.propName useOptionTypes (fst child) (snd child) +:+ ": "
                 +:+ (if negb (isRequiredSchema (snd child)) && useOptionTypes
                      then Cli.optionTypeWrapper else Cli.identity) t +:+ ";")
              children types); [reflexivity|].
    apply zip_with_ext; [|reflexivity..].
    intros child t. apply fieldLine_as_stated.
  - intros types reg' H. apply mapM_length in H.
    rewrite length_zip_with, H, length_map. lia.
Qed.

Lemma writeInterfaceType_fields_witness :
  let text := JoiSchema "string" [] [] None [] [] [] [] in
  let id := JoiSchema "string" [] [mkTest "guid"] (Some "required") [] [] [] [] in
  let widget := JoiSchema "object" [] [] None [] [] [("id", id); ("label", text)] [] in
  mapM (deriveType Cli) (List.map snd (_inner_children widget)) []
  = Ok (["Uuid"; "string"], [mkType "Uuid" (Some "string") None])
  /\ Cli.writeInterfaceType true "Widget" widget []
     = Ok ("export interface Widget {" +:+ nl
           +:+ "  id: Uuid;" +:+ nl
           +:+ "  label: Option<string>;" +:+ nl +:+ "}",
           [mkType "Uuid" (Some "string") None])
  /\ Cli.writeInterfaceType false "Widget" widget []
     = Ok ("export interface Widget {" +:+ nl
           +:+ "  id: Uuid;" +:+ nl
           +:+ "  label?: string;" +:+ nl +:+ "}",
           [mkType "Uuid" (Some "string") None]).
Proof.
  intros text id widget.
  split; [reflexivity|]. split.
  - rewrite (proj1 (writeInterfaceType_fields true "Widget" widget [])).
    reflexivity.
  - rewrite (proj1 (writeInterfaceType_fields false "Widget" widget [])).
    reflexivity.
Defined.

(** ** The final pass over the registry *)

Lemma registersOnly_weaken (P Q : IDiscoverableType -> Prop) {A} (m : Gen A) :
  (forall t, P t -> Q t) -> registersOnly P m -> registersOnly Q m.
Proof.
  intros HPQ Hm reg a reg' H. destruct (Hm _ _ _ H) as (ts & -> & F).
  exists ts. split; [reflexivity|]. eapply Forall_impl; eauto.
Qed.

Lemma deriveType_renderable (v : Variant) (schema : Schema) :
  registersOnly renderable (deriveType v schema).
Proof.
  eapply registersOnly_weaken; [|apply deriveType_registersOnly].
  intros t Ht. now right.
Qed.

Lemma registerAll_Forall (P : IDiscoverableType -> Prop)
    (ts : list IDiscoverableType) (reg : Registry) :
  Forall P reg -> Forall P ts -> Forall P (registerAll ts reg).
Proof.
  revert reg. induction ts as [|t ts IH]; intros reg Hreg Hts; simpl;
    [assumption|].
  inversion Hts; subst. apply IH; [|assumption].
  unfold addDiscoveredType. destruct (List.find _ reg); [assumption|].
  apply Forall_app. split; [assumption|]. now constructor.
Qed.

Lemma forEachUnshift_aliases (W : string -> TypeSource -> Result string)
    (types : list IDiscoverableType) (output : list string) :
  Forall (fun t => W (name t) (entryType t) = Ok (aliasDeclaration t)) types ->
  forEachUnshift W types output
  = Ok (rev (List.map aliasDeclaration types) ++ output).
Proof.
  intros H. revert output.
  induction H as [|t types Ht _ IH]; intros output; simpl; [reflexivity|].
  rewrite Ht, IH, <- app_assoc. reflexivity.
Qed.

Lemma unskipped_aliases (W : string -> TypeSource -> Result string)
    (reg : Registry) :
  (forall n T, W n (SrcString T) = Ok ("export type " +:+ n +:+ " = " +:+ T +:+ ";")) ->
  Forall renderable reg ->
  Forall (fun t => W (name t) (entryType t) = Ok (aliasDeclaration t))
    (unskipped reg).
Proof.
  intros HW Hreg. unfold unskipped. apply Forall_forall. intros t Ht.
  apply list_elem_of_In, filter_In in Ht as [Ht Hs].
  rewrite Forall_forall in Hreg. apply list_elem_of_In, Hreg in Ht.
  destruct Ht as [Ht|[T HT]].
  - rewrite Ht in Hs. discriminate.
  - unfold entryType, aliasDeclaration. rewrite HT. apply HW.
Qed.

Lemma Index_writeExport_renderable (type : Schema) :
  registersOnly renderable (Index.writeExport type).
Proof.
  unfold Index.writeExport. destruct (usableNotes type); [|apply registersOnly_ret].
  apply registersOnly_bind; [apply registersOnly_liftResult|]. intros n.
  apply registersOnly_bind; [apply registersOnly_register; now left|]. intros _.
  unfold Index.typeWriters.
  destruct (String.eqb (_type type) "array"); [apply registersOnly_liftResult|].
  destruct (String.eqb (_type type) "object").
  - unfold Index.writeInterfaceType.
    apply registersOnly_bind; [|intros; apply registersOnly_ret].
    apply registersOnly_mapM, Forall_forall. intros child _.
    apply registersOnly_bind; [apply deriveType_renderable|].
    intros; apply registersOnly_ret.
  - destruct (String.eqb (_type type) "string");
      [apply registersOnly_liftResult|apply registersOnly_throw].
Qed.

Lemma Cli_writer_renderable (useOptionTypes : bool) (kind n : string)
    (schema : Schema) writer :
  Cli.typeWriters useOptionTypes kind = Some writer ->
  registersOnly renderable (writer n schema).
Proof.
  unfold Cli.typeWriters.
  destruct (String.eqb kind "array");
    [intros [= <-]; apply registersOnly_liftResult|].
  destruct (String.eqb kind "object").
  - intros [= <-]. unfold Cli.writeInterfaceType.
    apply registersOnly_bind; [|intros; apply registersOnly_ret].
    apply registersOnly_mapM, Forall_forall. intros child _.
    apply registersOnly_bind; [apply deriveType_renderable|].
    intros; apply registersOnly_ret.
  - destruct (String.eqb kind "string"); [|discriminate].
    intros [= <-]; apply registersOnly_liftResult.
Qed.

Lemma Cli_writeSchema_inv (useOptionTypes : bool) (n : string) (l : nat)
    (reg : Registry) (heap : Heap) decl reg' heap' :
  Cli.writeSchema useOptionTypes n l reg heap = Ok (decl, reg', heap') ->
  exists object writer schema,
    heap !! l = Some object
    /\ Cli.typeWriters useOptionTypes (obj_type object) = Some writer
    /\ heap' = <[l := Cli.tagSchema n object]> heap
    /\ read heap' l = Some schema
    /\ writer n schema (addDiscoveredType (mkType n None (Some true)) reg)
       = Ok (decl, reg').
Proof.
  unfold Cli.writeSchema. destruct (heap !! l) as [object|]; [|discriminate].
  destruct (Cli.typeWriters useOptionTypes (obj_type object)) as [writer|] eqn:W;
    [|discriminate].
  destruct (read _ l) as [schema|] eqn:R; [|discriminate].
  destruct (writer n _ _) as [[d r]|e] eqn:E; [|discriminate].
  intros [= <- <- <-]. now exists object, writer, schema.
Qed.

Lemma Cli_writeSchemas_renderable (useOptionTypes : bool)
    (types : list (string * nat)) :
  forall reg heap decls reg' heap',
    Cli.writeSchemas useOptionTypes types reg heap = Ok (decls, reg', heap') ->
    exists ts, reg' = registerAll ts reg /\ Forall renderable ts.
Proof.
  induction types as [|[n l] types IH]; intros reg heap decls reg' heap' H;
    simpl in H.
  - injection H as _ <- _. now exists [].
  - destruct (Cli.writeSchema useOptionTypes n l reg heap)
      as [[[d r1] h1]|e] eqn:E1; [|discriminate].
    destruct (Cli.writeSchemas useOptionTypes types r1 h1)
      as [[[ds r2] h2]|e] eqn:E2; [|discriminate].
    injection H as _ <- _.
    apply Cli_writeSchema_inv in E1 as (object & writer & schema & _ & Hw & _ & _ & Hrun).
    destruct (Cli_writer_renderable _ _ n schema _ Hw _ _ _ Hrun)
      as (ts1 & -> & F1).
    destruct (IH _ _ _ _ _ E2) as (ts2 & -> & F2).
    exists (mkType n None (Some true) :: ts1 ++ ts2). split.
    + simpl. now rewrite registerAll_app.
    + constructor; [now left|]. now apply Forall_app.
Qed.

(** C6. Once the top-level schemas are written, the entries of the
    registry that are not skipped, and only those, are each written as an
    alias declaration and put in front of the top-level declarations, the
    entry discovered last coming first (in the CLI generator, behind the
    import line when [useOptionTypes] is set); a skipped entry gets no
    alias.  This holds for both generators, started on the empty registry. *)
Theorem discovered_aliases_prepended :
  (forall objects : list (string * Schema),
     Index.runTypeGenerator objects []
     = match mapM (fun export => Index.writeExport (snd export)) objects [] with
       | Ok (output, reg) =>
           Ok (join (nl +:+ nl)
                 (List.map aliasDeclaration (rev (unskipped reg)) ++ output), reg)
       | Throw e => Throw e
       end)
  /\ (forall (useOptionTypes : bool) (exported : list (string * nat)) (heap : Heap),
        Cli.runTypeGenerator useOptionTypes exported [] heap
        = match Cli.writeSchemas useOptionTypes (Cli.schemaTypes exported) [] heap with
          | Ok (schemaOutput, reg, heap') =>
              Ok (join (nl +:+ nl)
                    ((if useOptionTypes then [Cli.optionImport] else [])
                     ++ List.map aliasDeclaration (rev (unskipped reg))
                     ++ schemaOutput) +:+ nl, reg, heap')
          | Throw e => Throw e
          end)
  /\ (forall (reg : Registry) (t : IDiscoverableType),
        t ∈ unskipped reg <-> t ∈ reg /\ skipped t = false).
Proof.
  split; [|split].
  - intros objects. unfold Index.runTypeGenerator, bind.
    destruct (mapM _ objects []) as [[output reg]|e] eqn:E; [|reflexivity].
    assert (Hreg : Forall renderable reg).
    { assert (R : registersOnly renderable
                    (mapM (fun export => Index.writeExport (snd export)) objects)).
      { apply registersOnly_mapM, Forall_forall. intros x _.
        apply Index_writeExport_renderable. }
      destruct (R _ _ _ E) as (ts & -> & F).
      apply registerAll_Forall; [constructor|assumption]. }
    rewrite (forEachUnshift_aliases Index.writeTypeAlias).
    + now rewrite map_rev.
    + apply unskipped_aliases; [reflexivity|assumption].
  - intros useOptionTypes exported heap. unfold Cli.runTypeGenerator.
    destruct (Cli.writeSchemas _ _ [] heap) as [[[schemaOutput reg] heap']|e] eqn:E;
      [|reflexivity].
    assert (Hreg : Forall renderable reg).
    { destruct (Cli_writeSchemas_renderable _ _ _ _ _ _ _ E) as (ts & -> & F).
      apply registerAll_Forall; [constructor|assumption]. }
    rewrite (forEachUnshift_aliases Cli.writeTypeAlias).
    + rewrite map_rev. now destruct useOptionTypes.
    + apply unskipped_aliases; [reflexivity|assumption].
  - intros reg t. unfold unskipped.
    rewrite !list_elem_of_In, filter_In, negb_true_iff. reflexivity.
Qed.

Lemma discovered_aliases_prepended_witness :
  let money := JoiSchema "number" ["type:Money"] [] None [] [] [] [] in
  let id := JoiSchema "string" [] [mkTest "guid"] (Some "required") [] [] [] [] in
  let order :=
    JoiSchema "object" ["type:Order"] [] None [] [] [("id", id); ("total", money)] [] in
  Index.runTypeGenerator [("OrderSchema", order)] []
  = Ok ("export type Money = number;" +:+ nl +:+ nl
        +:+ "export type Uuid = string;" +:+ nl +:+ nl
        +:+ "export interface Order {" +:+ nl
        +:+ "  id: Uuid;" +:+ nl
        +:+ "  total?: Money;" +:+ nl +:+ "}",
        [mkType "Order" None (Some true); mkType "Uuid" (Some "string") None;
         mkType "Money" (Some "number") None]).
Proof.
  intros money id order.
  rewrite (proj1 discovered_aliases_prepended [("OrderSchema", order)]).
  reflexivity.
Defined.

(** ** The coercion helper *)

Lemma objectAssign_lookup (defaults : gmap string JsValue)
    (options : option (gmap string JsValue)) (key : string) :
  objectAssign ∅ [Some defaults; options] !! key
  = match options ≫= (fun o => o !! key) with
    | Some v => Some v
    | None => defaults !! key
    end.
Proof.
  unfold objectAssign. simpl. rewrite (right_id_L ∅ (∪)).
  destruct options as [o|]; simpl; [|reflexivity].
  rewrite lookup_union. destruct (o !! key), (defaults !! key); reflexivity.
Qed.

(** C8. [coerceValue] validates against the options obtained by laying
    the caller's options over the defaults (allowUnknown, convert and
    stripUnknown true, presence optional): a key the caller gives wins,
    any other key keeps its default.  When the validation reports no
    error the result is handed to [freeze] and returned; when it reports
    an error, that very error object is thrown. *)
Theorem coerceValue_spec (Value JoiSchemaT ValidationError : Type)
    (joi_validate :
       Value -> JoiSchemaT -> gmap string JsValue -> option ValidationError * Value)
    (freeze : Value -> Value)
    (schema : JoiSchemaT) (object : Value)
    (options : option (gmap string JsValue)) :
  let resolvedOptions := objectAssign ∅ [Some defaultOptions; options] in
  (forall key,
     resolvedOptions !! key
     = match options ≫= (fun o => o !! key) with
       | Some v => Some v
       | None => defaultOptions !! key
       end)
  /\ map_to_list defaultOptions
     ≡ₚ [("allowUnknown", JBool true); ("convert", JBool true);
         ("presence", JStr "optional"); ("stripUnknown", JBool true)]
  /\ (forall result,
        joi_validate object schema resolvedOptions = (None, result) ->
        coerceValue Value JoiSchemaT ValidationError joi_validate freeze
          schema object options = Returned (freeze result))
  /\ (forall err result,
        joi_validate object schema resolvedOptions = (Some err, result) ->
        coerceValue Value JoiSchemaT ValidationError joi_validate freeze
          schema object options = Thrown err).
Proof.
  intros resolvedOptions. split; [|split; [|split]].
  - intros key. apply objectAssign_lookup.
  - unfold defaultOptions.
    rewrite !map_to_list_insert, map_to_list_empty; [reflexivity|..];
      by vm_compute.
  - intros result H. unfold coerceValue. fold resolvedOptions. now rewrite H.
  - intros err result H. unfold coerceValue. fold resolvedOptions. now rewrite H.
Qed.

(** A validator that accepts a number, or its decimal text when [convert]
    is on; the caller turns [convert] off. *)
Lemma coerceValue_spec_witness :
  let validate (object : JsValue) (_ : unit) (options : gmap string JsValue) :=
    match object, options !! "convert" with
    | JNum z, _ => (None, JNum z)
    | JStr "7", Some (JBool true) => (None, JNum 7)
    | _, _ => (Some "must be a number", object)
    end in
  let freeze (v : JsValue) := v in
  coerceValue JsValue unit string validate freeze tt (JStr "7") None
  = Returned (JNum 7)
  /\ coerceValue JsValue unit string validate freeze tt (JStr "7")
       (Some {["convert" := JBool false]})
     = Thrown "must be a number".
Proof.
  intros validate freeze. split.
  - exact (proj1 (proj2 (proj2
      (coerceValue_spec JsValue unit string validate freeze tt (JStr "7") None)))
      (JNum 7) eq_refl).
  - exact (proj2 (proj2 (proj2
      (coerceValue_spec JsValue unit string validate freeze tt (JStr "7")
         (Some {["convert" := JBool false]}))))
      "must be a number" (JStr "7") eq_refl).
Defined.

(** ** The command line of the minimal generator *)

Lemma main_Exit_iff (require : option string -> Result (list (string * Schema)))
    (argv : list string) (code : Z) :
  Index.main require argv = Index.Exit code
  <-> code = 1%Z /\ falsy (argv !! 2%nat) = true /\ falsy (argv !! 3%nat) = true.
Proof.
  unfold Index.main.
  destruct (falsy (argv !! 2%nat)), (falsy (argv !! 3%nat)); simpl;
    try (split; [intros [= <-]; tauto | intros (-> & _); reflexivity]);
    (split; [|intros (_ & ? & ?); discriminate]);
    destruct (require _) as [objects|e]; try discriminate;
    destruct (Index.runTypeGenerator objects []) as [[? ?]|?]; try discriminate;
    destruct (argv !! 3%nat); discriminate.
Qed.

(** C9. Whenever one of the two arguments is missing from the command
    line, the minimal generator ends with a non-zero status and writes
    nothing.  With both missing the guard leaves with status 1 before
    the module is loaded; with the destination alone missing the guard
    does not fire, and the process dies of an uncaught exception: of the
    loader, of the generator, or at the latest of [fs.writeFileSync]
    called with an undefined path. *)
Theorem main_exits_nonzero_when_argument_missing
    (require : option string -> Result (list (string * Schema)))
    (argv : list string) :
  argv !! 2%nat = None \/ argv !! 3%nat = None ->
  (exists code, exitStatus (Index.main require argv) = Some code /\ code <> 0%Z)
  /\ (forall path content, Index.main require argv <> Index.WriteFileSync path content)
  /\ (argv !! 2%nat = None -> Index.main require argv = Index.Exit 1).
Proof.
  intros Hmiss.
  assert (H3 : argv !! 3%nat = None).
  { destruct Hmiss as [H2|H3]; [|exact H3].
    apply lookup_ge_None. apply lookup_ge_None in H2. lia. }
  unfold Index.main. rewrite H3. simpl.
  destruct (argv !! 2%nat) as [sourcePath|] eqn:H2; simpl.
  - rewrite andb_true_r.
    destruct (String.eqb sourcePath EmptyString).
    + split; [exists 1%Z; split; [reflexivity|discriminate]|].
      split; [discriminate|discriminate].
    + destruct (require (Some sourcePath)) as [objects|e].
      * destruct (Index.runTypeGenerator objects []) as [[content reg]|e];
          (split; [exists 1%Z; split; [reflexivity|discriminate]|]);
          (split; [discriminate|discriminate]).
      * split; [exists 1%Z; split; [reflexivity|discriminate]|].
        split; [discriminate|discriminate].
  - split; [exists 1%Z; split; [reflexivity|discriminate]|].
    split; [discriminate|reflexivity].
Qed.

Lemma main_exits_nonzero_when_argument_missing_witness :
  let argv := ["node"; "index.ts"; "./schemas"] in
  argv !! 3%nat = None
  /\ Index.main (fun _ => Ok []) argv = Index.Uncaught Index.pathNotAString
  /\ exists code,
       exitStatus (Index.main (fun _ => Ok []) argv) = Some code /\ code <> 0%Z.
Proof.
  intros argv. split; [reflexivity|]. split; [reflexivity|].
  exact (proj1 (main_exits_nonzero_when_argument_missing
                  (fun _ => Ok []) argv (or_intror eq_refl))).
Defined.

(** ** The notes pushed by the CLI generator *)

Lemma length_append (p s : string) :
  String.length (p +:+ s) = (String.length p + String.length s)%nat.
Proof.
  induction p as [|a p IH]; [reflexivity|].
  rewrite append_String. simpl. now rewrite IH.
Qed.

Lemma substring_append_skip (p s : string) (m : nat) :
  String.substring (String.length p) m (p +:+ s) = String.substring 0 m s.
Proof.
  induction p as [|a p IH]; [reflexivity|].
  rewrite append_String. simpl. exact IH.
Qed.

Lemma substring_append_take (p s : string) :
  String.substring 0 (String.length p) (p +:+ s) = p.
Proof.
  induction p as [|a p IH]; [now destruct s|].
  rewrite append_String. simpl. now rewrite IH.
Qed.

Lemma schemaCheck_suffixed (n : string) :
  schemaCheck_test (n +:+ "Schema") = true
  /\ schemaCheck_strip (n +:+ "Schema") = n.
Proof.
  assert (L : (String.length (n +:+ "Schema") - 6)%nat = String.length n).
  { rewrite length_append. simpl. lia. }
  assert (T : schemaCheck_test (n +:+ "Schema") = true).
  { unfold schemaCheck_test. rewrite L, substring_append_skip.
    rewrite length_append. simpl String.length.
    replace (6 <=? String.length n + 6)%nat with true
      by (symmetry; apply Nat.leb_le; lia).
    reflexivity. }
  split; [exact T|].
  unfold schemaCheck_strip. rewrite T, L. apply substring_append_take.
Qed.

Lemma schemaTypes_selected (exported : list (string * nat)) (n : string) (l : nat) :
  (n +:+ "Schema", l) ∈ exported -> (n, l) ∈ Cli.schemaTypes exported.
Proof.
  intros H. unfold Cli.schemaTypes.
  destruct (schemaCheck_suffixed n) as [T S].
  apply list_elem_of_In, in_map_iff. exists (n +:+ "Schema", l). simpl.
  split; [now rewrite S|].
  apply filter_In. split; [now apply list_elem_of_In|exact T].
Qed.

Lemma tagSchema_notes (n : string) (schema : SchemaObject) :
  obj_notes (Cli.tagSchema n schema)
  = if bool_decide (("type:" +:+ n) ∈ obj_notes schema)
    then obj_notes schema
    else obj_notes schema ++ ["type:" +:+ n].
Proof.
  unfold Cli.tagSchema.
  destruct (existsb _ (obj_notes schema)) eqn:E.
  - rewrite bool_decide_eq_true_2; [reflexivity|].
    apply existsb_exists in E as (x & Hx & Ex).
    apply String.eqb_eq in Ex. subst x. now apply list_elem_of_In.
  - rewrite bool_decide_eq_false_2; [reflexivity|].
    intros Hin. apply list_elem_of_In in Hin.
    assert (existsb (fun x => String.eqb x ("type:" +:+ n)) (obj_notes schema) = true).
    { apply existsb_exists. exists ("type:" +:+ n). split; [assumption|].
      apply String.eqb_refl. }
    congruence.
Qed.

Lemma tagSchema_frame (n : string) (schema : SchemaObject) :
  sameButNotes schema (Cli.tagSchema n schema).
Proof. unfold Cli.tagSchema. destruct (existsb _ _); repeat split. Qed.

Lemma tagWith_frame (names : list string) (schema : SchemaObject) :
  sameButNotes schema (tagWith names schema)
  /\ exists added, obj_notes (tagWith names schema) = obj_notes schema ++ added.
Proof.
  revert schema. induction names as [|n names IH]; intros schema; simpl.
  - split; [repeat split|]. exists []. now rewrite app_nil_r.
  - destruct (IH (Cli.tagSchema n schema)) as [F [added E]].
    pose proof (tagSchema_frame n schema) as F'.
    split.
    + unfold sameButNotes in *.
      destruct F as (?&?&?&?&?&?&?), F' as (?&?&?&?&?&?&?).
      repeat split; congruence.
    + rewrite E, tagSchema_notes. case_bool_decide.
      * now exists added.
      * exists (("type:" +:+ n) :: added). now rewrite <- app_assoc.
Qed.

Lemma tagWith_tagged (names : list string) (schema : SchemaObject) (n : string) :
  n ∈ names -> ("type:" +:+ n) ∈ obj_notes (tagWith names schema).
Proof.
  revert schema. induction names as [|m names IH]; intros schema Hin; simpl.
  - now apply elem_of_nil in Hin.
  - apply elem_of_cons in Hin as [->|Hin]; [|now apply IH].
    destruct (tagWith_frame names (Cli.tagSchema m schema)) as [_ [added ->]].
    apply elem_of_app. left. rewrite tagSchema_notes. case_bool_decide.
    + assumption.
    + apply elem_of_app. right. left.
Qed.

(** The heap after the top-level pass, location by location. *)
Lemma Cli_writeSchemas_heap (useOptionTypes : bool) (types : list (string * nat)) :
  forall reg heap decls reg' heap',
    Cli.writeSchemas useOptionTypes types reg heap = Ok (decls, reg', heap') ->
    forall l, heap' !! l = tagWith (namesAt l types) <$> heap !! l.
Proof.
  induction types as [|[n l0] types IH]; intros reg heap decls reg' heap' H l;
    simpl in H.
  - injection H as _ _ <-. now destruct (heap !! l).
  - destruct (Cli.writeSchema useOptionTypes n l0 reg heap)
      as [[[d r1] h1]|e] eqn:E1; [|discriminate].
    destruct (Cli.writeSchemas useOptionTypes types r1 h1)
      as [[[ds r2] h2]|e] eqn:E2; [|discriminate].
    injection H as _ _ <-.
    apply Cli_writeSchema_inv in E1 as (schema & writer & tree & Hl0 & _ & -> & _).
    rewrite (IH _ _ _ _ _ E2 l). unfold namesAt, Heap in *. simpl.
    destruct (Nat.eqb_spec l0 l) as [->|Hne].
    + rewrite list_lookup_insert_eq by (eapply lookup_lt_Some; eauto).
      rewrite Hl0. reflexivity.
    + now rewrite list_lookup_insert_ne.
Qed.

(** What [read] gives at a location carries the fields of the object
    there. *)
Lemma readHeap_snoc (heap : Heap) (o : SchemaObject) :
  readHeap (heap ++ [o]) = readHeap heap ++ [readObject (readHeap heap) o].
Proof. unfold readHeap. now rewrite fold_left_app. Qed.

Lemma readHeap_length (heap : Heap) :
  List.length (readHeap heap) = List.length heap.
Proof.
  induction heap as [|o heap IH] using rev_ind; [reflexivity|].
  rewrite readHeap_snoc, !length_app, IH. reflexivity.
Qed.

Lemma readObject_fields (built : list (option Schema)) (o : SchemaObject)
    (s : Schema) :
  readObject built o = Some s ->
  _type s = obj_type o /\ _notes s = obj_notes o /\ _tests s = obj_tests o
  /\ _flags_presence s = obj_flags_presence o
  /\ _valids_set s = obj_valids_set o.
Proof.
  unfold readObject.
  destruct (readRefs built (obj_inner_items o)); [|discriminate].
  destruct (readChildren built (obj_inner_children o)); [|discriminate].
  destruct (readRefs built (obj_inner_matches o)); [|discriminate].
  intros [= <-]. repeat split.
Qed.

Lemma read_fields (heap : Heap) (l : nat) (s : Schema) :
  read heap l = Some s ->
  exists o, heap !! l = Some o
    /\ _type s = obj_type o /\ _notes s = obj_notes o /\ _tests s = obj_tests o
    /\ _flags_presence s = obj_flags_presence o
    /\ _valids_set s = obj_valids_set o.
Proof.
  unfold read, Heap in *.
  induction heap as [|o heap IH] using rev_ind; [discriminate|].
  rewrite readHeap_snoc.
  destruct (decide (l < List.length heap)%nat) as [Hlt|Hge].
  - rewrite !lookup_app_l by (rewrite ?readHeap_length; assumption).
    exact IH.
  - destruct (decide (l = List.length heap)) as [->|Hne].
    + rewrite <- (readHeap_length heap) at 1.
      rewrite !list_lookup_middle by (rewrite ?readHeap_length; reflexivity).
      destruct (readObject (readHeap heap) o) as [s'|] eqn:E; [|discriminate].
      intros [= <-]. exists o. split; [reflexivity|].
      now apply readObject_fields in E.
    + rewrite lookup_ge_None_2; [discriminate|].
      rewrite length_app, readHeap_length. simpl. lia.
Qed.

(** C10. The top-level pass of the CLI generator changes the schema
    objects it is given.  Each object ends up as it was, but for notes
    appended: going through the exports named [<Name>Schema] that refer to
    it, in order, the note [type:<Name>] is pushed unless the notes
    already hold it, and the writer reads the schema, the pushed note
    included, after the push.  So after the pass every selected schema
    carries its note; an object exported under one name has exactly that
    note appended, or is unchanged when it had it; no other field of any
    object changes, and an object that no selected export refers to is
    left as it was. *)
Theorem generation_tags_schemas (useOptionTypes : bool)
    (exported : list (string * nat)) (reg : Registry) (heap : Heap)
    (decls : list string) (reg' : Registry) (heap' : Heap) :
  Cli.writeSchemas useOptionTypes (Cli.schemaTypes exported) reg heap
  = Ok (decls, reg', heap') ->
  let types := Cli.schemaTypes exported in
  (forall l, heap' !! l = tagWith (namesAt l types) <$> heap !! l)
  /\ (forall n l object,
        (n +:+ "Schema", l) ∈ exported -> heap !! l = Some object ->
        exists object',
          heap' !! l = Some object' /\ ("type:" +:+ n) ∈ obj_notes object')
  /\ (forall n l object,
        namesAt l types = [n] -> heap !! l = Some object ->
        exists object',
          heap' !! l = Some object'
          /\ obj_notes object'
             = if bool_decide (("type:" +:+ n) ∈ obj_notes object)
               then obj_notes object
               else obj_notes object ++ ["type:" +:+ n])
  /\ (forall l object,
        heap !! l = Some object ->
        exists object' added,
          heap' !! l = Some object'
          /\ obj_notes object' = obj_notes object ++ added
          /\ sameButNotes object object')
  /\ (forall l, namesAt l types = [] -> heap' !! l = heap !! l)
  /\ (forall n l decl reg0 heap0 reg1 heap1,
        Cli.writeSchema useOptionTypes n l reg0 heap0 = Ok (decl, reg1, heap1) ->
        exists object writer schema,
          heap0 !! l = Some object
          /\ heap1 = <[l := Cli.tagSchema n object]> heap0
          /\ read heap1 l = Some schema
          /\ _notes schema = obj_notes (Cli.tagSchema n object)
          /\ Cli.typeWriters useOptionTypes (obj_type object) = Some writer
          /\ writer n schema (addDiscoveredType (mkType n None (Some true)) reg0)
             = Ok (decl, reg1)).
Proof.
  intros H types.
  pose proof (Cli_writeSchemas_heap _ _ _ _ _ _ _ H) as Hheap. fold types in Hheap.
  split; [exact Hheap|]. split; [|split; [|split; [|split]]].
  - intros n l object Hin Hl. exists (tagWith (namesAt l types) object).
    rewrite Hheap, Hl. split; [reflexivity|].
    apply tagWith_tagged. unfold namesAt.
    apply list_elem_of_In, in_map_iff. exists (n, l). split; [reflexivity|].
    apply filter_In. split; [|apply Nat.eqb_refl].
    now apply list_elem_of_In, schemaTypes_selected.
  - intros n l object Hn Hl. exists (Cli.tagSchema n object).
    rewrite Hheap, Hl, Hn. split; [reflexivity|]. apply tagSchema_notes.
  - intros l object Hl.
    destruct (tagWith_frame (namesAt l types) object) as [F [added E]].
    exists (tagWith (namesAt l types) object), added.
    rewrite Hheap, Hl. repeat split; solve [assumption | apply F].
  - intros l Hn. rewrite Hheap, Hn. now destruct (heap !! l).
  - intros n l decl reg0 heap0 reg1 heap1 Hstep.
    apply Cli_writeSchema_inv in Hstep
      as (object & writer & schema & Hl & Hw & -> & Hread & Hrun).
    exists object, writer, schema. repeat split; try assumption.
    apply read_fields in Hread as (o & Ho & _ & -> & _).
    unfold Heap in *.
    rewrite list_lookup_insert_eq in Ho by (eapply lookup_lt_Some; eauto).
    now injection Ho as <-.
Qed.

(** One object exported under two names, and an export that is not a
    schema. *)
Lemma generation_tags_schemas_witness :
  let text := mkObject "string" [] [] None [] [] [] [] in
  let user := mkObject "object" ["a user"] [] None [] [] [("name", 0%nat)] [] in
  let exported := [("UserSchema", 1%nat); ("version", 0%nat); ("MemberSchema", 1%nat)] in
  let heap := [text; user] in
  exists decls reg' heap',
    Cli.writeSchemas false (Cli.schemaTypes exported) [] heap = Ok (decls, reg', heap')
    /\ (obj_notes <$> heap' !! 1%nat) = Some ["a user"; "type:User"; "type:Member"]
    /\ heap' !! 0%nat = Some text.
Proof.
  intros text user exported heap.
  destruct (Cli.writeSchemas false (Cli.schemaTypes exported) [] heap)
    as [[[decls reg'] heap']|e] eqn:E; [|discriminate E].
  exists decls, reg', heap'. split; [reflexivity|].
  destruct (generation_tags_schemas false exported [] heap decls reg' heap' E)
    as (Hheap & _).
  rewrite !Hheap. split; reflexivity.
Defined.

(** ** Reading schemas from a heap in building order *)

Lemma readRefs_Some (built : list (option Schema)) (refs : list nat) :
  Forall is_Some built ->
  Forall (fun r => r < List.length built)%nat refs ->
  is_Some (readRefs built refs).
Proof.
  intros Hb. induction 1 as [|r refs Hr _ IH]; simpl; [eauto|].
  destruct (lookup_lt_is_Some_2 built r Hr) as [x Hx]. rewrite Hx.
  rewrite Forall_forall in Hb.
  destruct (Hb x (list_elem_of_lookup_2 _ _ _ Hx)) as [s ->].
  destruct IH as [ss ->]. eauto.
Qed.

Lemma readChildren_Some (built : list (option Schema)) (refs : list (string * nat)) :
  Forall is_Some built ->
  Forall (fun c => snd c < List.length built)%nat refs ->
  is_Some (readChildren built refs).
Proof.
  intros Hb. induction 1 as [|[key r] refs Hr _ IH]; simpl; [eauto|].
  destruct (lookup_lt_is_Some_2 built r Hr) as [x Hx]. rewrite Hx.
  rewrite Forall_forall in Hb.
  destruct (Hb x (list_elem_of_lookup_2 _ _ _ Hx)) as [s ->].
  destruct IH as [ss ->]. eauto.
Qed.

Lemma readHeap_builtInOrder (heap : Heap) :
  builtInOrder heap -> Forall is_Some (readHeap heap).
Proof.
  unfold builtInOrder, Heap in *.
  induction heap as [|o heap IH] using rev_ind; intros Hord; [constructor|].
  assert (Hheap : forall l o', heap !! l = Some o' ->
            Forall (fun r => r < l)%nat (obj_inner_items o')
            /\ Forall (fun c => snd c < l)%nat (obj_inner_children o')
            /\ Forall (fun r => r < l)%nat (obj_inner_matches o')).
  { intros l o' Hl. apply Hord. rewrite lookup_app_l; [assumption|].
    eapply lookup_lt_Some; eauto. }
  specialize (IH Hheap).
  rewrite readHeap_snoc. apply Forall_app. split; [assumption|].
  constructor; [|constructor].
  destruct (Hord (List.length heap) o) as (Hi & Hc & Hm).
  { now rewrite list_lookup_middle. }
  rewrite <- (readHeap_length heap) in Hi, Hc, Hm.
  unfold readObject.
  destruct (readRefs_Some _ _ IH Hi) as [items ->].
  destruct (readChildren_Some _ _ IH Hc) as [children ->].
  destruct (readRefs_Some _ _ IH Hm) as [matches ->]. eauto.
Qed.

(** On a heap in building order every object can be read. *)
Lemma read_builtInOrder (heap : Heap) (l : nat) :
  builtInOrder heap -> (l < List.length heap)%nat -> is_Some (read heap l).
Proof.
  intros Hord Hl. unfold read.
  pose proof (readHeap_builtInOrder heap Hord) as Hall.
  rewrite <- readHeap_length in Hl.
  destruct (lookup_lt_is_Some_2 _ _ Hl) as [x Hx]. rewrite Hx.
  rewrite Forall_forall in Hall.
  destruct (Hall x (list_elem_of_lookup_2 _ _ _ Hx)) as [s ->]. eauto.
Qed.

(** Pushing a note keeps the heap in building order. *)
Lemma tagSchema_builtInOrder (heap : Heap) (l : nat) (n : string)
    (o : SchemaObject) :
  builtInOrder heap -> heap !! l = Some o ->
  builtInOrder (<[l := Cli.tagSchema n o]> heap).
Proof.
  unfold builtInOrder, Heap in *. intros Hord Hl l' o' Hl'.
  destruct (decide (l = l')) as [<-|Hne].
  - rewrite list_lookup_insert_eq in Hl' by (eapply lookup_lt_Some; eauto).
    injection Hl' as <-.
    destruct (tagSchema_frame n o) as (_ & _ & _ & _ & <- & <- & <-).
    now apply Hord.
  - rewrite list_lookup_insert_ne in Hl' by assumption. now apply Hord.
Qed.

(** ** Runs on small modules *)

(** A schema exported on its own and used as a field of another: once
    [NameSchema] is written its object carries [type:Name], and the field
    of [UserSchema], which is that object, is derived to [Name]. *)
Example cli_run_shared_schema :
  let name := mkObject "string" [] [] None [] [] [] [] in
  let user := mkObject "object" [] [] None [] [] [("name", 0%nat)] [] in
  Cli.runTypeGenerator false [("NameSchema", 0%nat); ("UserSchema", 1%nat)] []
    [name; user]
  = Ok ("export type Name = string;" +:+ nl +:+ nl
        +:+ "export interface User {" +:+ nl
        +:+ "  name?: Name;" +:+ nl +:+ "}" +:+ nl,
        [mkType "Name" None (Some true); mkType "User" None (Some true)],
        [mkObject "string" ["type:Name"] [] None [] [] [] [];
         mkObject "object" ["type:User"] [] None [] [] [("name", 0%nat)] []]).
Proof. reflexivity. Qed.

(** Written the other way round, the field is derived before the push. *)
Example cli_run_shared_schema_late :
  let name := mkObject "string" [] [] None [] [] [] [] in
  let user := mkObject "object" [] [] None [] [] [("name", 0%nat)] [] in
  fst <$> (match Cli.runTypeGenerator false
                   [("UserSchema", 1%nat); ("NameSchema", 0%nat)] [] [name; user] with
           | Ok r => Some r | Throw _ => None end)
  = Some ("export interface User {" +:+ nl
          +:+ "  name?: string;" +:+ nl +:+ "}" +:+ nl +:+ nl
          +:+ "export type Name = string;" +:+ nl,
          [mkType "User" None (Some true); mkType "Name" None (Some true)]).
Proof. reflexivity. Qed.

(** Two schemas, each with a field annotated [type:Money]: one entry, one
    alias, and both fields of type [Money]. *)
Example cli_run_two_money_fields :
  let money := mkObject "number" ["type:Money"] [] (Some "required") [] [] [] [] in
  let cents := mkObject "number" ["type:Money"] [] None [] [] [] [] in
  let order := mkObject "object" [] [] None [] [] [("total", 0%nat)] [] in
  let refund := mkObject "object" [] [] None [] [] [("amount", 1%nat)] [] in
  fst <$> (match Cli.runTypeGenerator true
                   [("OrderSchema", 2%nat); ("RefundSchema", 3%nat)] []
                   [money; cents; order; refund] with
           | Ok r => Some r | Throw _ => None end)
  = Some ("import { Option } from " +:+ dquote +:+ "fp-ts/lib/Option" +:+ dquote
          +:+ ";" +:+ nl +:+ nl
          +:+ "export type Money = number;" +:+ nl +:+ nl
          +:+ "export interface Order {" +:+ nl
          +:+ "  total: Money;" +:+ nl +:+ "}" +:+ nl +:+ nl
          +:+ "export interface Refund {" +:+ nl
          +:+ "  amount: Option<Money>;" +:+ nl +:+ "}" +:+ nl,
          [mkType "Order" None (Some true); mkType "Money" (Some "number") None;
           mkType "Refund" None (Some true)]).
Proof. reflexivity. Qed.

(** A top-level kind without a writer: calling [undefined] throws. *)
Example index_run_unsupported_kind :
  Index.runTypeGenerator
    [("count", JoiSchema "number" ["type:Count"] [] None [] [] [] [])] []
  = Throw notAFunction.
Proof. reflexivity. Qed.

(** An array without items: [deriveType(undefined)] throws. *)
Example deriveType_array_without_items :
  deriveType Cli (JoiSchema "array" [] [] None [] [] [] []) []
  = Throw readTypeOfUndefined.
Proof. reflexivity. Qed.

(** The guard of the minimal generator leaves when both paths are
    missing, and only then. *)
Example index_main_no_arguments :
  Index.main (fun _ => Ok []) ["node"; "index.ts"] = Index.Exit 1.
Proof. reflexivity. Qed.

(** * Further properties *)

(** ** What [deriveType] does to the registry *)

Lemma registerAll_names (ts : list IDiscoverableType) (reg : Registry)
    (t : IDiscoverableType) :
  t ∈ ts -> name t ∈ name <$> registerAll ts reg.
Proof.
  intros Hin.
  destruct (List.find (hasName (name t)) (registerAll ts reg)) as [x|] eqn:F.
  - apply find_hasName_Some in F as [<- F]. now apply list_elem_of_fmap_2.
  - rewrite registerAll_find in F.
    destruct (List.find (hasName (name t)) reg); [discriminate|].
    apply find_hasName_None in F. exfalso. apply F.
    now apply list_elem_of_fmap_2.
Qed.

Lemma registerAll_names_mono (ts : list IDiscoverableType) (reg : Registry)
    (n : string) :
  n ∈ name <$> reg -> n ∈ name <$> registerAll ts reg.
Proof.
  intros Hin. destruct (registerAll_extends ts reg) as [new ->].
  rewrite fmap_app. apply elem_of_app. now left.
Qed.

Lemma registerAll_absorb (ts : list IDiscoverableType) (reg : Registry) :
  Forall (fun t => name t ∈ name <$> reg) ts -> registerAll ts reg = reg.
Proof.
  induction 1 as [|t ts Ht _ IH]; simpl; [reflexivity|].
  now rewrite (addDiscoveredType_present _ _ Ht).
Qed.

Lemma registerAll_twice (ts later : list IDiscoverableType) (reg : Registry) :
  registerAll ts (registerAll later (registerAll ts reg))
  = registerAll later (registerAll ts reg).
Proof.
  apply registerAll_absorb, Forall_forall. intros t Ht.
  now apply registerAll_names_mono, registerAll_names.
Qed.

Lemma registerAll_extends_Forall (P : IDiscoverableType -> Prop)
    (ts : list IDiscoverableType) (reg : Registry) :
  Forall P ts -> exists new, registerAll ts reg = reg ++ new /\ Forall P new.
Proof.
  intros H. revert reg. induction H as [|t ts Ht _ IH]; intros reg; simpl.
  - exists []. now rewrite app_nil_r.
  - destruct (IH (addDiscoveredType t reg)) as (new & -> & Hnew).
    unfold addDiscoveredType. destruct (List.find _ reg).
    + now exists new.
    + exists (t :: new). rewrite <- app_assoc. split; [reflexivity|].
      now constructor.
Qed.

Section Uniform.
Variable P : IDiscoverableType -> Prop.

Lemma uniform_ret {A} (a : A) : uniform P (ret a).
Proof. right. exists a, []. split; [constructor|reflexivity]. Qed.

Lemma uniform_throw {A} (e : JsError) : uniform P (@throw A e).
Proof. left. now exists e. Qed.

Lemma uniform_liftResult {A} (r : Result A) : uniform P (liftResult r).
Proof.
  destruct r as [a|e]; [right|left].
  - exists a, []. split; [constructor|reflexivity].
  - now exists e.
Qed.

Lemma uniform_register (t : IDiscoverableType) : P t -> uniform P (register t).
Proof.
  intros Ht. right. exists tt, [t]. split; [now constructor|reflexivity].
Qed.

Lemma uniform_bind {A B} (m : Gen A) (k : A -> Gen B) :
  uniform P m -> (forall a, uniform P (k a)) -> uniform P (bind m k).
Proof.
  intros [[e Hm]|(a & ts & Hts & Hm)] Hk.
  - left. exists e. intros reg. unfold bind. now rewrite Hm.
  - destruct (Hk a) as [[e Hka]|(b & ts' & Hts' & Hka)].
    + left. exists e. intros reg. unfold bind. now rewrite Hm, Hka.
    + right. exists b, (ts ++ ts'). split; [now apply Forall_app|].
      intros reg. unfold bind. now rewrite Hm, Hka, registerAll_app.
Qed.

Lemma uniform_mapM {A B} (f : A -> Gen B) (xs : list A) :
  Forall (fun x => uniform P (f x)) xs -> uniform P (mapM f xs).
Proof.
  induction 1 as [|x xs Hx _ IH]; simpl.
  - apply uniform_ret.
  - apply uniform_bind; [assumption|]. intros y.
    apply uniform_bind; [assumption|]. intros ys. apply uniform_ret.
Qed.

End Uniform.

Lemma deriveType_uniform (v : Variant) (schema : Schema) :
  uniform discovered (deriveType v schema).
Proof.
  induction schema as [ty notes tests presence valids items children matches
                         IHitems _ IHmatches] using Schema_tree_ind.
  rewrite deriveType_unfold. cbn [_type _notes _inner_matches].
  destruct (String.eqb ty "array").
  - unfold unwrapArray. cbn [_inner_items].
    destruct items as [|item rest]; [apply uniform_throw|].
    destruct (some rest).
    + apply uniform_bind; [now apply uniform_mapM|].
      intros ts. apply uniform_ret.
    + apply uniform_bind; [now inversion IHitems|].
      intros ts. apply uniform_ret.
  - destruct (usableNotes _).
    + unfold unwrapNotes.
      apply uniform_bind; [apply uniform_liftResult|]. intros n.
      apply uniform_bind; [apply uniform_register; now split|]. intros _.
      apply uniform_ret.
    + destruct (uuidCheck _).
      * apply uniform_bind; [apply uniform_register; now split|]. intros _.
        apply uniform_ret.
      * destruct (match v with Cli => _ | Index => false end).
        -- apply uniform_bind; [now apply uniform_mapM|].
           intros ts. apply uniform_ret.
        -- apply uniform_ret.
Qed.

(** X1. Whether [deriveType] throws, and the type expression it returns,
    depend on the schema alone: the registry it is started on makes no
    difference. *)
Theorem deriveType_registry_independent (v : Variant) (schema : Schema)
    (reg1 reg2 : Registry) :
  outcome (deriveType v schema reg1) = outcome (deriveType v schema reg2).
Proof.
  destruct (deriveType_uniform v schema) as [[e H]|(t & ts & _ & H)];
    now rewrite !H.
Qed.

(** X2. Deriving a schema a second time changes nothing: on the registry
    left by a first derivation, and on any registry grown from it by
    further registrations, [deriveType] returns the same type and leaves
    the registry as it is. *)
Theorem deriveType_idempotent (v : Variant) (schema : Schema)
    (reg reg' : Registry) (t : string) (later : list IDiscoverableType) :
  deriveType v schema reg = Ok (t, reg') ->
  deriveType v schema (registerAll later reg')
  = Ok (t, registerAll later reg').
Proof.
  intros H. destruct (deriveType_uniform v schema) as [[e U]|(t' & ts & _ & U)].
  - rewrite U in H. discriminate.
  - rewrite U in H. injection H as -> <-.
    rewrite U. now rewrite registerAll_twice.
Qed.

Lemma deriveType_idempotent_witness :
  let id := JoiSchema "string" [] [mkTest "guid"] None [] [] [] [] in
  let money := JoiSchema "number" ["type:Money"] [] None [] [] [] [] in
  let pair := JoiSchema "array" [] [] None [] [id; money] [] [] in
  let reg' := [mkType "Uuid" (Some "string") None;
               mkType "Money" (Some "number") None] in
  deriveType Cli pair [] = Ok ("Array<Uuid | Money>", reg')
  /\ deriveType Cli pair (registerAll [mkType "Order" None (Some true)] reg')
     = Ok ("Array<Uuid | Money>",
           reg' ++ [mkType "Order" None (Some true)]).
Proof.
  intros id money pair reg'.
  assert (H : deriveType Cli pair [] = Ok ("Array<Uuid | Money>", reg'))
    by reflexivity.
  split; [exact H|].
  exact (deriveType_idempotent Cli pair [] reg' _
           [mkType "Order" None (Some true)] H).
Defined.

(** X3. [deriveType] keeps the registry in shape: the entries it finds
    stay where they are, what it adds comes behind them, each with a
    [type] and without [skip], and names that were pairwise distinct stay
    so. *)
Theorem deriveType_extends_registry (v : Variant) (schema : Schema)
    (reg reg' : Registry) (t : string) :
  deriveType v schema reg = Ok (t, reg') ->
  exists new,
    reg' = reg ++ new
    /\ Forall discovered new
    /\ (NoDup (name <$> reg) -> NoDup (name <$> reg')).
Proof.
  intros H. destruct (deriveType_uniform v schema) as [[e U]|(t' & ts & Hts & U)].
  - rewrite U in H. discriminate.
  - rewrite U in H. injection H as -> <-.
    destruct (registerAll_extends_Forall discovered ts reg Hts) as (new & E & Hnew).
    exists new. split; [exact E|]. split; [exact Hnew|].
    intros Hnd. now apply registerAll_NoDup.
Qed.

Lemma deriveType_extends_registry_witness :
  let id := JoiSchema "string" [] [mkTest "guid"] None [] [] [] [] in
  let reg := [mkType "Order" None (Some true)] in
  deriveType Index id reg = Ok ("Uuid", reg ++ [mkType "Uuid" (Some "string") None])
  /\ exists new,
       reg ++ [mkType "Uuid" (Some "string") None] = reg ++ new
       /\ Forall discovered new.
Proof.
  intros id reg.
  assert (H : deriveType Index id reg
              = Ok ("Uuid", reg ++ [mkType "Uuid" (Some "string") None]))
    by reflexivity.
  split; [exact H|].
  destruct (deriveType_extends_registry Index id reg _ _ H) as (new & E & F & _).
  now exists new.
Defined.

(** ** When [deriveType] of the minimal generator throws *)

Lemma mapM_throws {A B} (f : A -> Gen B) (p : A -> bool) (E : JsError)
    (xs : list A) :
  Forall (fun x => (p x = true -> forall r, exists y r', f x r = Ok (y, r'))
                   /\ (p x = false -> forall r, f x r = Throw E)) xs ->
  forallb p xs = false -> forall r, mapM f xs r = Throw E.
Proof.
  induction 1 as [|x xs [Hok Hbad] _ IH]; simpl; [discriminate|].
  intros Hp r. unfold bind. destruct (p x) eqn:Px.
  - destruct (Hok eq_refl r) as (y & r' & ->). simpl in Hp.
    now rewrite (IH Hp r').
  - now rewrite (Hbad eq_refl r).
Qed.

Lemma deriveType_absent (v : Variant) (schema : Schema) :
  itemsPresent v schema = false ->
  forall reg, deriveType v schema reg = Throw readTypeOfUndefined.
Proof.
  induction schema as [ty notes tests presence valids items children matches
                         IHitems _ IHmatches] using Schema_tree_ind.
  intros Hwf reg. rewrite deriveType_unfold.
  cbn [itemsPresent] in Hwf. cbn [_type _notes _inner_matches].
  assert (Hall : forall l,
            Forall (fun s => itemsPresent v s = false ->
                      forall reg, deriveType v s reg = Throw readTypeOfUndefined) l ->
            Forall (fun x =>
                      (itemsPresent v x = true ->
                       forall r, exists y r', deriveType v x r = Ok (y, r'))
                      /\ (itemsPresent v x = false ->
                          forall r, deriveType v x r = Throw readTypeOfUndefined)) l).
  { intros l Hl. eapply Forall_impl; [exact Hl|]. intros x Hx. split.
    - intros Hp r. now apply deriveType_total.
    - exact Hx. }
  destruct (String.eqb ty "array").
  - unfold unwrapArray. cbn [_inner_items].
    destruct items as [|item rest]; [reflexivity|].
    destruct (some rest) eqn:Hsome.
    + unfold bind.
      now rewrite (mapM_throws _ _ _ _ (Hall _ IHitems) Hwf reg).
    + unfold bind. rewrite some_nonempty in Hsome.
      destruct rest; [|discriminate]. simpl in Hwf.
      rewrite andb_true_r in Hwf.
      inversion IHitems as [|? ? Hitem _]; subst.
      now rewrite (Hitem Hwf reg).
  - destruct (usableNotes _); [discriminate|].
    destruct (uuidCheck _); [discriminate|].
    destruct (match v with Cli => _ | Index => false end); [|discriminate].
    unfold bind.
    now rewrite (mapM_throws _ _ _ _ (Hall _ IHmatches) Hwf reg).
Qed.

(** X4. In the minimal generator [deriveType] throws in one case only:
    when it comes to an array without items, where it reads [_type] off
    [undefined].  It returns exactly when no array it visits is without
    items; in particular it never throws the error of [nameFromNotes]. *)
Theorem Index_deriveType_throws_iff (schema : Schema) (reg : Registry) :
  (itemsPresent Index schema = true
   <-> exists t reg', deriveType Index schema reg = Ok (t, reg'))
  /\ (itemsPresent Index schema = false
      <-> deriveType Index schema reg = Throw readTypeOfUndefined)
  /\ (forall e, deriveType Index schema reg = Throw e -> e = readTypeOfUndefined).
Proof.
  destruct (itemsPresent Index schema) eqn:Hp.
  - destruct (deriveType_total Index schema Hp reg) as (t & reg' & H). rewrite H.
    split; [|split].
    + split; [eauto|reflexivity].
    + split; discriminate.
    + discriminate.
  - rewrite (deriveType_absent Index schema Hp reg). split; [|split].
    + split; [discriminate|]. intros (t & reg' & H). discriminate.
    + split; reflexivity.
    + now intros e [= <-].
Qed.

(** ** The two generators side by side *)

Lemma mapM_pointwise {A B} (f g : A -> Gen B) (xs : list A) :
  Forall (fun x => forall r, f x r = g x r) xs ->
  forall r, mapM f xs r = mapM g xs r.
Proof.
  induction 1 as [|x xs Hx _ IH]; intros r; simpl; [reflexivity|].
  unfold bind. rewrite Hx. destruct (g x r) as [[y r1]|e]; [|reflexivity].
  now rewrite IH.
Qed.

Lemma deriveType_variants (schema : Schema) :
  alternativesNotMet schema = true ->
  forall reg, deriveType Index schema reg = deriveType Cli schema reg.
Proof.
  induction schema as [ty notes tests presence valids items children matches
                         IHitems _ _] using Schema_tree_ind.
  intros Hna reg. rewrite !deriveType_unfold.
  cbn [alternativesNotMet] in Hna. cbn [_type _notes _inner_matches].
  destruct (String.eqb ty "array").
  - unfold unwrapArray. cbn [_inner_items].
    destruct items as [|item rest]; [reflexivity|].
    assert (Hall : Forall (fun x => forall r,
                             deriveType Index x r = deriveType Cli x r)
                     (item :: rest)).
    { pose proof (proj1 (forallb_forall _ _) Hna) as Hna'.
      rewrite Forall_forall in IHitems |- *.
      intros x Hx. apply IHitems; [assumption|].
      now apply Hna', list_elem_of_In. }
    destruct (some rest).
    + unfold bind. now rewrite (mapM_pointwise _ _ _ Hall).
    + unfold bind. inversion Hall as [|? ? Hitem _]; subst. now rewrite Hitem.
  - destruct (usableNotes _); [reflexivity|].
    destruct (uuidCheck _); [reflexivity|].
    now destruct (alternativesCheck _).
Qed.

Lemma Index_fieldLine_as_stated (child : string * Schema) (t : string) :
  "  " +:+ Index.propName (fst child) (snd child) +:+ ": " +:+ t +:+ ";"
  = fieldLineAsStated false child t.
Proof.
  unfold fieldLineAsStated, Index.propName, isRequiredSchema.
  destruct (_flags_presence (snd child)) as [p|]; [|reflexivity].
  destruct (String.eqb_spec p "required") as [E|E].
  - now rewrite (bool_decide_eq_true_2 _ E).
  - now rewrite (bool_decide_eq_false_2 _ E).
Qed.

Lemma Index_writeInterfaceType_lines (typeName : string) (node : Schema)
    (reg : Registry) :
  Index.writeInterfaceType typeName node reg
  = match mapM (deriveType Index) (List.map snd (_inner_children node)) reg with
    | Ok (types, reg') =>
        Ok ("export interface " +:+ typeName +:+ " {" +:+ nl
            +:+ join nl (zip_with (fieldLineAsStated false)
                           (_inner_children node) types)
            +:+ nl +:+ "}", reg')
    | Throw e => Throw e
    end.
Proof.
  unfold Index.writeInterfaceType, bind at 1.
  rewrite (mapM_bind_ret (fun child => deriveType Index (snd child))
             (fun child t =>
                "  " +:+ Index.propName (fst child) (snd child) +:+ ": "
                +:+ t +:+ ";")).
  rewrite (mapM_map (deriveType Index) snd).
  destruct (mapM (deriveType Index) (List.map snd (_inner_children node)) reg)
    as [[types reg']|e]; [|reflexivity].
  unfold ret.
  replace (zip_with (fieldLineAsStated false) (_inner_children node) types)
    with (zip_with
            (fun child t =>
               "  " +:+ Index.propName (fst child) (snd child) +:+ ": "
               +:+ t +:+ ";")
            (_inner_children node) types); [reflexivity|].
  apply zip_with_ext; [|reflexivity..].
  intros child t. apply Index_fieldLine_as_stated.
Qed.

(** X5. The record declaration written by the minimal generator holds one
    field line per child, in the order of the children: the key, with [?]
    iff the child is not required, and the type derived for the child,
    the children being derived in order; an exception of a derivation is
    passed on. *)
Theorem Index_writeInterfaceType_fields (typeName : string) (node : Schema)
    (reg : Registry) :
  let children := _inner_children node in
  Index.writeInterfaceType typeName node reg
  = match mapM (deriveType Index) (List.map snd children) reg with
    | Ok (types, reg') =>
        Ok ("export interface " +:+ typeName +:+ " {" +:+ nl
            +:+ join nl (zip_with (fieldLineAsStated false) children types)
            +:+ nl +:+ "}", reg')
    | Throw e => Throw e
    end
  /\ (forall types reg',
        mapM (deriveType Index) (List.map snd children) reg = Ok (types, reg') ->
        List.length (zip_with (fieldLineAsStated false) children types)
        = List.length children).
Proof.
  intros children. split.
  - apply Index_writeInterfaceType_lines.
  - intros types reg' H. apply mapM_length in H.
    rewrite length_zip_with, H, length_map. lia.
Qed.

Lemma Index_writeInterfaceType_fields_witness :
  let id := JoiSchema "string" [] [mkTest "guid"] (Some "required") [] [] [] [] in
  let tags :=
    JoiSchema "array" [] [] None [] [JoiSchema "string" [] [] None [] [] [] []] [] [] in
  let widget := JoiSchema "object" [] [] None [] [] [("id", id); ("tags", tags)] [] in
  mapM (deriveType Index) (List.map snd (_inner_children widget)) []
  = Ok (["Uuid"; "string[]"], [mkType "Uuid" (Some "string") None])
  /\ Index.writeInterfaceType "Widget" widget []
     = Ok ("export interface Widget {" +:+ nl
           +:+ "  id: Uuid;" +:+ nl
           +:+ "  tags?: string[];" +:+ nl +:+ "}",
           [mkType "Uuid" (Some "string") None]).
Proof.
  intros id tags widget. split; [reflexivity|].
  rewrite (proj1 (Index_writeInterfaceType_fields "Widget" widget [])).
  reflexivity.
Defined.

(** X6. The two generators differ in [deriveType] by the [alternatives]
    case alone: on a schema where no visited node reaches that case they
    derive the same type and make the same registrations, and the CLI
    generator without [useOptionTypes] writes the same record declaration
    as the minimal generator. *)
Theorem generators_agree (typeName : string) (schema : Schema) (reg : Registry) :
  (alternativesNotMet schema = true ->
     deriveType Index schema reg = deriveType Cli schema reg)
  /\ (forallb (fun child => alternativesNotMet (snd child))
        (_inner_children schema) = true ->
      Index.writeInterfaceType typeName schema reg
      = Cli.writeInterfaceType false typeName schema reg).
Proof.
  split; [intros H; now apply deriveType_variants|].
  intros H.
  rewrite Index_writeInterfaceType_lines.
  unfold Cli.writeInterfaceType, bind at 1.
  rewrite (mapM_bind_ret (fun child => deriveType Cli (snd child))
             (fun child t =>
                "  " +:+ Cli.propName false (fst child) (snd child) +:+ ": "
                +:+ (if negb (isRequiredSchema (snd child)) && false
                     then Cli.optionTypeWrapper else Cli.identity) t +:+ ";")).
  rewrite (mapM_map (deriveType Cli) snd).
  rewrite (mapM_pointwise (deriveType Index) (deriveType Cli)).
  - destruct (mapM (deriveType Cli) _ reg) as [[types reg']|e]; [|reflexivity].
    unfold ret.
    replace (zip_with (fieldLineAsStated false) (_inner_children schema) types)
      with (zip_with
              (fun child t =>
                 "  " +:+ Cli.propName false (fst child) (snd child) +:+ ": "
                 +:+ (if negb (isRequiredSchema (snd child)) && false
                      then Cli.optionTypeWrapper else Cli.identity) t +:+ ";")
              (_inner_children schema) types); [reflexivity|].
    apply zip_with_ext; [|reflexivity..].
    intros child t. apply fieldLine_as_stated.
  - apply Forall_forall. intros x Hx r. apply deriveType_variants.
    apply list_elem_of_In, in_map_iff in Hx as (child & <- & Hc).
    exact (proj1 (forallb_forall _ _) H child Hc).
Qed.

Lemma generators_agree_witness :
  let id := JoiSchema "string" [] [mkTest "guid"] None [] [] [] [] in
  let ids := JoiSchema "array" [] [] None [] [id] [] [] in
  alternativesNotMet ids = true
  /\ deriveType Index ids [] = deriveType Cli ids [].
Proof.
  intros id ids. split; [reflexivity|].
  exact (proj1 (generators_agree "Ids" ids []) eq_refl).
Defined.

(** ** The run of the minimal generator *)

Lemma nameFromNotes_usable (notes : list string) :
  existsb typeCheck_test notes = true -> exists n, nameFromNotes notes = Ok n.
Proof.
  intros H. unfold nameFromNotes.
  apply existsb_exists in H as (n & Hin & Hn).
  destruct (List.find typeCheck_test notes) as [n'|] eqn:E.
  - apply find_some in E as [_ E].
    rewrite (typeCheck_test_nonempty _ E). eauto.
  - exfalso. eapply find_none in E; eauto. congruence.
Qed.

Lemma Index_run_unfold (objects : list (string * Schema)) :
  Index.runTypeGenerator objects []
  = match mapM (fun export => Index.writeExport (snd export)) objects [] with
    | Ok (output, reg) =>
        Ok (join (nl +:+ nl)
              (List.map aliasDeclaration (rev (unskipped reg)) ++ output), reg)
    | Throw e => Throw e
    end.
Proof.
  unfold Index.runTypeGenerator, bind.
  destruct (mapM _ objects []) as [[output reg]|e] eqn:E; [|reflexivity].
  assert (Hreg : Forall renderable reg).
  { assert (R : registersOnly renderable
                  (mapM (fun export => Index.writeExport (snd export)) objects)).
    { apply registersOnly_mapM, Forall_forall. intros x _.
      apply Index_writeExport_renderable. }
    destruct (R _ _ _ E) as (ts & -> & F).
    apply registerAll_Forall; [constructor|assumption]. }
  rewrite (forEachUnshift_aliases Index.writeTypeAlias).
  - now rewrite map_rev.
  - apply unskipped_aliases; [reflexivity|assumption].
Qed.

(** ** The exports selected by the CLI generator *)

Lemma substring_full (s : string) : String.substring 0 (String.length s) s = s.
Proof. induction s as [|c s IH]; simpl; [reflexivity|]. now rewrite IH. Qed.

Lemma substring_split (s : string) (n : nat) :
  (n <= String.length s)%nat ->
  s = String.substring 0 n s +:+ String.substring n (String.length s - n) s.
Proof.
  revert n. induction s as [|c s IH]; intros n Hn.
  - simpl in Hn. now replace n with 0%nat by lia.
  - destruct n as [|n].
    + rewrite Nat.sub_0_r, substring_full. reflexivity.
    + simpl in Hn. simpl. rewrite append_String. f_equal. apply IH. lia.
Qed.

Lemma schemaCheck_test_split (k : string) :
  schemaCheck_test k = true -> k = schemaCheck_strip k +:+ "Schema".
Proof.
  intros H. unfold schemaCheck_strip. rewrite H.
  unfold schemaCheck_test in H. apply andb_true_iff in H as [Hlen Hsuf].
  apply Nat.leb_le in Hlen. apply String.eqb_eq in Hsuf.
  rewrite (substring_split k (String.length k - 6)) at 1 by lia.
  replace (String.length k - (String.length k - 6))%nat with 6%nat by lia.
  now rewrite Hsuf.
Qed.

Lemma NoDup_map_inj_on {A B} (f : A -> B) (l : list A) :
  (forall x y, x ∈ l -> y ∈ l -> f x = f y -> x = y) ->
  NoDup l -> NoDup (List.map f l).
Proof.
  intros Hinj Hnd. induction Hnd as [|x l Hx Hnd IH]; simpl; constructor.
  - intros Hin. apply list_elem_of_In, in_map_iff in Hin as (y & Hy & Hin).
    apply list_elem_of_In in Hin.
    assert (y = x) by (apply Hinj; [now right|left|assumption]).
    subst. contradiction.
  - apply IH. intros a b Ha Hb. apply Hinj; now right.
Qed.

Lemma schemaTypes_names (exported : list (string * nat)) :
  List.map fst (Cli.schemaTypes exported)
  = List.map schemaCheck_strip
      (List.filter schemaCheck_test (List.map fst exported)).
Proof.
  unfold Cli.schemaTypes.
  induction exported as [|[k l] exported IH]; simpl; [reflexivity|].
  destruct (schemaCheck_test k); simpl; now rewrite IH.
Qed.

(** X8. The CLI generator writes exactly the exports whose name ends in
    [Schema], each under its name without that suffix and for the same
    object; and exports of distinct names are written under distinct
    names, so none hides another. *)
Theorem schemaTypes_selects (exported : list (string * nat)) :
  (forall n l, (n, l) ∈ Cli.schemaTypes exported
               <-> (n +:+ "Schema", l) ∈ exported)
  /\ (NoDup (List.map fst exported) ->
      NoDup (List.map fst (Cli.schemaTypes exported))).
Proof.
  split.
  - intros n l. split; [|apply schemaTypes_selected].
    unfold Cli.schemaTypes. intros H.
    apply list_elem_of_In, in_map_iff in H as ([k l'] & E & H).
    apply filter_In in H as [H T]. simpl in *. injection E as <- <-.
    rewrite <- (schemaCheck_test_split k T). now apply list_elem_of_In.
  - intros Hnd. rewrite schemaTypes_names. apply NoDup_map_inj_on.
    + intros x y Hx Hy E.
      apply elem_of_filter_bool in Hx as [_ Hx], Hy as [_ Hy].
      rewrite (schemaCheck_test_split x Hx), (schemaCheck_test_split y Hy).
      now rewrite E.
    + now apply NoDup_filter_bool.
Qed.

Lemma schemaTypes_selects_witness :
  let exported := [("UserSchema", 1%nat); ("version", 0%nat); ("Schema", 2%nat)] in
  NoDup (List.map fst exported)
  /\ Cli.schemaTypes exported = [("User", 1%nat); (EmptyString, 2%nat)]
  /\ NoDup (List.map fst (Cli.schemaTypes exported)).
Proof.
  intros exported.
  assert (H : NoDup (List.map fst exported)).
  { apply NoDup_ListNoDup. repeat constructor; simpl; intuition discriminate. }
  split; [exact H|]. split; [reflexivity|].
  exact (proj2 (schemaTypes_selects exported) H).
Defined.

(** ** The pushed note and the name read from the notes *)

Lemma nameFromNotes_find (notes notes' : list string) :
  List.find typeCheck_test notes = List.find typeCheck_test notes' ->
  nameFromNotes notes = nameFromNotes notes'.
Proof. intros H. unfold nameFromNotes. now rewrite H. Qed.

Lemma find_tagged (n : string) (o : SchemaObject) :
  List.find typeCheck_test (obj_notes (Cli.tagSchema n o))
  = match List.find typeCheck_test (obj_notes o) with
    | Some note => Some note
    | None => Some ("type:" +:+ n)
    end.
Proof.
  destruct (typeCheck_strip_tagged n) as [Ht _].
  rewrite tagSchema_notes. case_bool_decide as Hin.
  - destruct (List.find typeCheck_test (obj_notes o)) eqn:F; [reflexivity|].
    apply list_elem_of_In in Hin.
    pose proof (find_none _ _ F _ Hin). congruence.
  - rewrite find_app. destruct (List.find typeCheck_test (obj_notes o));
      [reflexivity|].
    simpl. fold (typeCheck_test ("type:" +:+ n)). now rewrite Ht.
Qed.

(** X9. Where a schema object had no note matching [type:], the name read
    from its notes after the push of the CLI generator is the name it was
    written under; where it had one, the push does not change the name
    read, since the first matching note is the one taken. *)
Theorem tagSchema_then_nameFromNotes (n : string) (o : SchemaObject) :
  nameFromNotes (obj_notes (Cli.tagSchema n o))
  = if existsb typeCheck_test (obj_notes o)
    then nameFromNotes (obj_notes o)
    else Ok n.
Proof.
  destruct (existsb typeCheck_test (obj_notes o)) eqn:E.
  - apply nameFromNotes_find. rewrite find_tagged.
    destruct (List.find typeCheck_test (obj_notes o)) eqn:F; [reflexivity|].
    apply existsb_exists in E as (x & Hx & Tx).
    pose proof (find_none _ _ F _ Hx). congruence.
  - unfold nameFromNotes. rewrite find_tagged.
    destruct (List.find typeCheck_test (obj_notes o)) as [x|] eqn:F.
    + apply find_some in F as [Hx Tx].
      assert (existsb typeCheck_test (obj_notes o) = true)
        by (apply existsb_exists; eauto).
      congruence.
    + destruct (typeCheck_strip_tagged n) as [Ht Hs].
      now rewrite (typeCheck_test_nonempty _ Ht), Hs.
Qed.

(** X10. What the push is for: once a schema object that is not an array
    and had no [type:] note has been written under a name, every schema
    read through that object is derived to that name, by either
    [deriveType], and the derivation adds nothing to the registry. *)
Theorem written_schema_derives_to_name (useOptionTypes : bool) (n : string)
    (l : nat) (reg reg1 : Registry) (heap heap1 : Heap) (decl : string)
    (o : SchemaObject) (schema : Schema) (v : Variant)
    (later : list IDiscoverableType) :
  Cli.writeSchema useOptionTypes n l reg heap = Ok (decl, reg1, heap1) ->
  heap !! l = Some o ->
  obj_type o <> "array" ->
  existsb typeCheck_test (obj_notes o) = false ->
  read heap1 l = Some schema ->
  deriveType v schema (registerAll later reg1) = Ok (n, registerAll later reg1).
Proof.
  intros Hstep Hl Harr Hnotes Hread.
  apply Cli_writeSchema_inv in Hstep
    as (o' & writer & schema' & Hl' & Hw & -> & Hread' & Hrun).
  rewrite Hl in Hl'. injection Hl' as <-.
  destruct (Cli_writer_renderable _ _ n schema' _ Hw _ _ _ Hrun) as (ts & -> & _).
  apply read_fields in Hread as (o1 & Ho1 & Hty & Hno & _).
  unfold Heap in *.
  rewrite list_lookup_insert_eq in Ho1 by (eapply lookup_lt_Some; eauto).
  injection Ho1 as <-.
  assert (Hfind : List.find typeCheck_test (_notes schema) = Some ("type:" +:+ n)).
  { rewrite Hno, find_tagged.
    destruct (List.find typeCheck_test (obj_notes o)) as [x|] eqn:F; [|reflexivity].
    apply find_some in F as [Hx Tx].
    assert (existsb typeCheck_test (obj_notes o) = true)
      by (apply existsb_exists; eauto).
    congruence. }
  assert (Hty' : _type schema <> "array").
  { rewrite Hty. now destruct (tagSchema_frame n o) as (<- & _). }
  rewrite (deriveType_named v schema _ _ Hty' Hfind).
  destruct (typeCheck_strip_tagged n) as [_ ->].
  rewrite addDiscoveredType_present; [reflexivity|]. simpl.
  apply registerAll_names_mono, registerAll_names_mono.
  destruct (List.find (hasName n) (addDiscoveredType (mkType n None (Some true)) reg))
    as [x|] eqn:F.
  - apply find_hasName_Some in F as [<- F]. now apply list_elem_of_fmap_2.
  - rewrite addDiscoveredType_find in F.
    destruct (List.find (hasName n) reg); [discriminate|].
    unfold hasName in F. simpl in F. rewrite String.eqb_refl in F. discriminate.
Qed.

Lemma written_schema_derives_to_name_witness :
  let name := mkObject "string" [] [] None [] [] [] [] in
  let heap := [name] in
  let heap1 := [mkObject "string" ["type:Name"] [] None [] [] [] []] in
  let reg1 := [mkType "Name" None (Some true)] in
  Cli.writeSchema false "Name" 0 [] heap
  = Ok ("export type Name = string;", reg1, heap1)
  /\ deriveType Cli (JoiSchema "string" ["type:Name"] [] None [] [] [] [])
       (registerAll [mkType "User" None (Some true)] reg1)
     = Ok ("Name", reg1 ++ [mkType "User" None (Some true)]).
Proof.
  intros name heap heap1 reg1.
  assert (H : Cli.writeSchema false "Name" 0 [] heap
              = Ok ("export type Name = string;", reg1, heap1)) by reflexivity.
  split; [exact H|].
  refine (written_schema_derives_to_name false "Name" 0 [] reg1 heap heap1 _
            name _ Cli [mkType "User" None (Some true)] H eq_refl _ eq_refl eq_refl).
  discriminate.
Defined.

(** ** Running the pass again *)

Lemma tagSchema_absorb (n : string) (o : SchemaObject) :
  ("type:" +:+ n) ∈ obj_notes o -> Cli.tagSchema n o = o.
Proof.
  intros Hin. unfold Cli.tagSchema.
  replace (existsb _ (obj_notes o)) with true; [reflexivity|].
  symmetry. apply existsb_exists. exists ("type:" +:+ n).
  split; [now apply list_elem_of_In|apply String.eqb_refl].
Qed.

Lemma tagWith_absorb (names : list string) (o : SchemaObject) :
  Forall (fun n => ("type:" +:+ n) ∈ obj_notes o) names -> tagWith names o = o.
Proof.
  induction 1 as [|n names Hn _ IH]; simpl; [reflexivity|].
  now rewrite (tagSchema_absorb n o Hn).
Qed.

(** X11. The pass pushes each note once: run again on the heap it left,
    with whatever registry, it leaves every schema object as it finds
    it. *)
Theorem generation_pushes_once (useOptionTypes : bool)
    (types : list (string * nat)) (reg reg' reg2 reg2' : Registry)
    (heap heap' heap'' : Heap) (decls decls2 : list string) :
  Cli.writeSchemas useOptionTypes types reg heap = Ok (decls, reg', heap') ->
  Cli.writeSchemas useOptionTypes types reg2 heap' = Ok (decls2, reg2', heap'') ->
  heap'' = heap'.
Proof.
  intros H1 H2.
  pose proof (Cli_writeSchemas_heap _ _ _ _ _ _ _ H1) as E1.
  pose proof (Cli_writeSchemas_heap _ _ _ _ _ _ _ H2) as E2.
  unfold Heap in *. apply list_eq. intros l. rewrite E2, E1.
  destruct (heap !! l) as [o|]; [|reflexivity]. simpl. f_equal.
  apply tagWith_absorb, Forall_forall. intros n Hn. now apply tagWith_tagged.
Qed.

Lemma generation_pushes_once_witness :
  let text := mkObject "string" [] [] None [] [] [] [] in
  let user := mkObject "object" [] [] None [] [] [("name", 0%nat)] [] in
  let types := [("Name", 0%nat); ("User", 1%nat)] in
  exists decls reg' heap' decls2 reg2',
    Cli.writeSchemas true types [] [text; user] = Ok (decls, reg', heap')
    /\ Cli.writeSchemas true types reg' heap' = Ok (decls2, reg2', heap').
Proof.
  intros text user types.
  destruct (Cli.writeSchemas true types [] [text; user])
    as [[[decls reg'] heap']|e] eqn:E1; [|discriminate E1].
  destruct (Cli.writeSchemas true types reg' heap')
    as [[[decls2 reg2'] heap'']|e] eqn:E2.
  - exists decls, reg', heap', decls2, reg2'. split; [reflexivity|].
    rewrite E2. f_equal. f_equal.
    exact (generation_pushes_once _ _ _ _ _ _ _ _ _ _ _ E1 E2).
  - exfalso. vm_compute in E1. injection E1 as <- <- <-.
    vm_compute in E2. discriminate E2.
Defined.

(** ** Fixtures and import paths *)

(** X12. [coerceFactory] validates the fixture with the default options
    and nothing else: the [options] it is given go to [factory.build],
    not to the validation.  The rest is as for [coerceValue]: the result
    is frozen and returned, or the error of the validation thrown. *)
Theorem coerceFactory_default_options
    (Value JoiSchemaT ValidationError Attrs BuildOptions : Type)
    (joi_validate :
       Value -> JoiSchemaT -> gmap string JsValue -> option ValidationError * Value)
    (freeze : Value -> Value)
    (factory_build : option Attrs -> option BuildOptions -> Value)
    (schema : JoiSchemaT) (attrs : option Attrs) (options : option BuildOptions) :
  coerceFactory Value JoiSchemaT ValidationError Attrs BuildOptions
    joi_validate freeze factory_build schema attrs options
  = match joi_validate (factory_build attrs options) schema defaultOptions with
    | (Some err, _) => Thrown err
    | (None, result) => Returned (freeze result)
    end.
Proof.
  unfold coerceFactory, coerceValue, objectAssign. simpl.
  now rewrite (right_id_L ∅ (∪)).
Qed.

Lemma stripTsSuffix_suffixed (q : string) : stripTsSuffix (q +:+ ".ts") = q.
Proof.
  assert (L : (String.length (q +:+ ".ts") - 3)%nat = String.length q).
  { rewrite length_append. simpl. lia. }
  unfold stripTsSuffix. rewrite L, substring_append_skip, length_append.
  simpl String.length.
  replace (3 <=? String.length q + 3)%nat with true
    by (symmetry; apply Nat.leb_le; lia).
  simpl. apply substring_append_take.
Qed.

Lemma prefix_dot (p : string) :
  String.prefix "." p = true -> exists p', p = String "." p'.
Proof.
  intros H. apply (prefix_split "." p) in H. simpl in H. rewrite H. eauto.
Qed.

Lemma firstChar_dot (p : string) :
  match String.get 0 p with
  | Some "."%char => p
  | _ => "./" +:+ p
  end
  = if String.prefix "." p then p else "./" +:+ p.
Proof.
  destruct (String.prefix "." p) eqn:H.
  - apply prefix_dot in H as [p' ->]. reflexivity.
  - destruct p as [|c p']; [reflexivity|].
    destruct (ascii_dec c ".") as [->|Hne].
    + pose proof (prefix_append "." p') as H'.
      change ("." +:+ p') with (String "." p') in H'. congruence.
    + simpl. destruct c as [[] [] [] [] [] [] [] []]; try reflexivity.
      congruence.
Qed.

(** X13. [relativeImportPath] always gives a path that starts with a dot,
    so that the import is never taken for a package name: the relative
    path as it is when it starts with a dot, and behind [./] otherwise
    (also when it is empty); and a final [.ts] of the relative path is
    left out. *)
Theorem relativeImportPath_dotted (path_relative : string -> string -> string)
    (path_dirname : string -> string) (from to : string) :
  let p := stripTsSuffix (path_relative (path_dirname from) to) in
  let result := relativeImportPath path_relative path_dirname from to in
  String.prefix "." result = true
  /\ (String.prefix "." p = true -> result = p)
  /\ (String.prefix "." p = false -> result = "./" +:+ p)
  /\ (forall q, path_relative (path_dirname from) to = q +:+ ".ts" -> p = q).
Proof.
  intros p result. unfold result, relativeImportPath. fold p.
  rewrite firstChar_dot.
  split; [|split; [|split]].
  - destruct (String.prefix "." p) eqn:H; [exact H|].
    exact (prefix_append "." ("/" +:+ p)).
  - now intros ->.
  - now intros ->.
  - intros q Hq. unfold p. rewrite Hq. apply stripTsSuffix_suffixed.
Qed.

Lemma relativeImportPath_dotted_witness :
  let path_relative (from to : string) := "types.ts" in
  let path_dirname (p : string) := "src" in
  String.prefix "." "types" = false
  /\ relativeImportPath path_relative path_dirname "src/utils.ts" "src/types.ts"
     = "./types".
Proof.
  intros path_relative path_dirname. split; [reflexivity|].
  exact (proj1 (proj2 (proj2
           (relativeImportPath_dotted path_relative path_dirname
              "src/utils.ts" "src/types.ts"))) eq_refl).
Defined.

(** ** The registry at the end of a run *)

Lemma addDiscoveredType_names (t : IDiscoverableType) (reg : Registry) :
  name t ∈ name <$> addDiscoveredType t reg.
Proof. exact (registerAll_names [t] reg t ltac:(left)). Qed.

Lemma Cli_writeSchemas_names (useOptionTypes : bool) (types : list (string * nat)) :
  forall reg heap decls reg' heap',
    Cli.writeSchemas useOptionTypes types reg heap = Ok (decls, reg', heap') ->
    forall n l, (n, l) ∈ types -> n ∈ name <$> reg'.
Proof.
  induction types as [|[n0 l0] types IH]; intros reg heap decls reg' heap' H n l Hin;
    simpl in H.
  - now apply elem_of_nil in Hin.
  - destruct (Cli.writeSchema useOptionTypes n0 l0 reg heap)
      as [[[d r1] h1]|e] eqn:E1; [|discriminate].
    destruct (Cli.writeSchemas useOptionTypes types r1 h1)
      as [[[ds r2] h2]|e] eqn:E2; [|discriminate].
    injection H as _ <- _.
    apply elem_of_cons in Hin as [[= -> ->]|Hin]; [|eauto].
    apply Cli_writeSchema_inv in E1
      as (object & writer & schema & _ & Hw & _ & _ & Hrun).
    destruct (Cli_writer_renderable _ _ n0 schema _ Hw _ _ _ Hrun) as (ts1 & -> & _).
    destruct (Cli_writeSchemas_renderable _ _ _ _ _ _ _ E2) as (ts2 & -> & _).
    apply registerAll_names_mono, registerAll_names_mono.
    exact (addDiscoveredType_names (mkType n0 None (Some true)) reg).
Qed.

(** X14. At the end of a run of the CLI generator the names of the
    registry are pairwise distinct, every schema written has an entry
    under its name, and every entry is either skipped or has a type to be
    aliased to. *)
Theorem Cli_run_registry (useOptionTypes : bool) (exported : list (string * nat))
    (heap heap' : Heap) (content : string) (reg : Registry) :
  Cli.runTypeGenerator useOptionTypes exported [] heap = Ok (content, reg, heap') ->
  NoDup (name <$> reg)
  /\ (forall n l, (n +:+ "Schema", l) ∈ exported -> n ∈ name <$> reg)
  /\ Forall renderable reg.
Proof.
  unfold Cli.runTypeGenerator.
  destruct (Cli.writeSchemas _ _ [] heap) as [[[schemaOutput reg0] heap0]|e] eqn:E;
    [|discriminate].
  destruct (forEachUnshift _ _ _) as [out|e]; [|discriminate].
  intros [= _ <- _].
  destruct (Cli_writeSchemas_renderable _ _ _ _ _ _ _ E) as (ts & Hreg & F).
  split; [|split].
  - rewrite Hreg. apply registerAll_NoDup. constructor.
  - intros n l Hin. eapply Cli_writeSchemas_names; [exact E|].
    apply schemaTypes_selected, Hin.
  - rewrite Hreg. apply registerAll_Forall; [constructor|assumption].
Qed.

Lemma Cli_run_registry_witness :
  let money := mkObject "number" ["type:Money"] [] None [] [] [] [] in
  let order := mkObject "object" [] [] None [] [] [("total", 0%nat)] [] in
  exists content reg heap',
    Cli.runTypeGenerator false [("OrderSchema", 1%nat)] [] [money; order]
    = Ok (content, reg, heap')
    /\ NoDup (name <$> reg) /\ "Order" ∈ name <$> reg.
Proof.
  intros money order.
  destruct (Cli.runTypeGenerator false [("OrderSchema", 1%nat)] [] [money; order])
    as [[[content reg] heap']|e] eqn:E; [|discriminate E].
  exists content, reg, heap'. split; [reflexivity|].
  destruct (Cli_run_registry _ _ _ _ _ _ E) as (Hnd & Hin & _).
  split; [exact Hnd|]. apply (Hin "Order" 1%nat). left.
Defined.

Lemma Index_writeExport_names (type : Schema) (reg reg' : Registry) (out : string) :
  Index.writeExport type reg = Ok (out, reg') ->
  (forall n, n ∈ name <$> reg -> n ∈ name <$> reg')
  /\ (usableNotes type = true ->
      exists n, nameFromNotes (_notes type) = Ok n /\ n ∈ name <$> reg').
Proof.
  intros H.
  destruct (Index_writeExport_renderable type _ _ _ H) as (ts & -> & _).
  split; [intros n; apply registerAll_names_mono|].
  intros Hn. unfold Index.writeExport in H. rewrite Hn in H.
  destruct (nameFromNotes_usable _ Hn) as [n Hname].
  exists n. split; [exact Hname|].
  unfold bind, liftResult, register in H. rewrite Hname in H.
  destruct (Index.typeWriters (_type type)) as [writer|] eqn:W; [|discriminate].
  assert (R : registersOnly renderable (writer n type)).
  { revert W. unfold Index.typeWriters.
    destruct (String.eqb (_type type) "array");
      [intros [= <-]; apply registersOnly_liftResult|].
    destruct (String.eqb (_type type) "object").
    - intros [= <-]. unfold Index.writeInterfaceType.
      apply registersOnly_bind; [|intros; apply registersOnly_ret].
      apply registersOnly_mapM, Forall_forall. intros child _.
      apply registersOnly_bind; [apply deriveType_renderable|].
      intros; apply registersOnly_ret.
    - destruct (String.eqb (_type type) "string"); [|discriminate].
      intros [= <-]; apply registersOnly_liftResult. }
  destruct (R _ _ _ H) as (ts' & E & _). rewrite E.
  apply registerAll_names_mono.
  exact (addDiscoveredType_names (mkType n None (Some true)) reg).
Qed.

Lemma Index_mapM_names (objects : list (string * Schema)) :
  forall reg output reg',
    mapM (fun export => Index.writeExport (snd export)) objects reg
    = Ok (output, reg') ->
    (forall n, n ∈ name <$> reg -> n ∈ name <$> reg')
    /\ (forall export, export ∈ objects -> usableNotes (snd export) = true ->
          exists n, nameFromNotes (_notes (snd export)) = Ok n
                    /\ n ∈ name <$> reg').
Proof.
  induction objects as [|x objects IH]; intros reg output reg' H; simpl in H.
  - ret_inv H. split; [auto|]. intros export Hin. now apply elem_of_nil in Hin.
  - apply bind_inv in H as (y & r1 & Hy & H).
    apply bind_inv in H as (ys & r2 & Hys & H). ret_inv H.
    destruct (Index_writeExport_names _ _ _ _ Hy) as [M1 N1].
    destruct (IH _ _ _ Hys) as [M2 N2].
    split; [auto|].
    intros export Hin Hn. apply elem_of_cons in Hin as [->|Hin]; [|auto].
    destruct (N1 Hn) as (n & E & Hin). eauto.
Qed.

(** X15. At the end of a run of the minimal generator the names of the
    registry are pairwise distinct, and every export that carries a
    [type:] note has an entry under the name read from its notes. *)
Theorem Index_run_registry (objects : list (string * Schema))
    (content : string) (reg : Registry) :
  Index.runTypeGenerator objects [] = Ok (content, reg) ->
  NoDup (name <$> reg)
  /\ (forall export, export ∈ objects -> usableNotes (snd export) = true ->
        exists n, nameFromNotes (_notes (snd export)) = Ok n
                  /\ n ∈ name <$> reg).
Proof.
  rewrite Index_run_unfold.
  destruct (mapM _ objects []) as [[output reg0]|e] eqn:E; [|discriminate].
  intros [= _ <-]. split.
  - assert (R : registersOnly renderable
                  (mapM (fun export => Index.writeExport (snd export)) objects)).
    { apply registersOnly_mapM, Forall_forall. intros x _.
      apply Index_writeExport_renderable. }
    destruct (R _ _ _ E) as (ts & -> & _). apply registerAll_NoDup. constructor.
  - exact (proj2 (Index_mapM_names _ _ _ _ E)).
Qed.

Lemma Index_run_registry_witness :
  let money := JoiSchema "number" ["type:Money"] [] None [] [] [] [] in
  let order :=
    JoiSchema "object" ["type:Order"] [] None [] [] [("total", money)] [] in
  exists content reg,
    Index.runTypeGenerator [("OrderSchema", order)] [] = Ok (content, reg)
    /\ NoDup (name <$> reg).
Proof.
  intros money order.
  destruct (Index.runTypeGenerator [("OrderSchema", order)] [])
    as [[content reg]|e] eqn:E; [|discriminate E].
  exists content, reg. split; [reflexivity|].
  exact (proj1 (Index_run_registry _ _ _ E)).
Defined.
